(** * dist_zero: the timestamp-ordered event queue and the integer heap

    A shallow embedding of [include/event_queue.c] and [include/queue.c]
    and the verification of their heap algorithms.

    Machine model.  [unsigned int] is 32 bits wide and [size_t] is 64 bits
    wide (LP64), so that [cap * sizeof(struct event)] never wraps.
    Unsigned arithmetic wraps modulo [2^32] and is written out with
    [wrap].  A C array is a [list] of cells; a NULL pointer is [None].
    An access outside the allocated cells (or through NULL) is undefined
    behaviour in C and yields [Undefined] here.  Both loops of the source
    are run with a fixed iteration budget; [OutOfFuel] is returned when
    the budget is exhausted. *)

From stdpp Require Import base option list numbers sorting.
From Stdlib Require Import ZArith Lia.

Local Open Scope Z_scope.

(** ** Outcomes of a C computation *)

Inductive outcome (A : Type) : Type :=
  | Ret (a : A)
  | Undefined
  | OutOfFuel.

Arguments Ret {A} a.
Arguments Undefined {A}.
Arguments OutOfFuel {A}.

#[global] Instance outcome_ret : MRet outcome := @Ret.

#[global] Instance outcome_bind : MBind outcome := λ A B k m,
  match m with
  | Ret a => k a
  | Undefined => Undefined
  | OutOfFuel => OutOfFuel
  end.

(** ** Machine integers and arrays *)

Definition UINT_WIDTH : Z := 32.
Definition UINT_MOD : Z := 2 ^ UINT_WIDTH.

(** The value of an [unsigned int] expression. *)
Definition wrap (z : Z) : Z := z mod UINT_MOD.

(** Every loop of the source moves [index] one level of the implicit
    tree per iteration; a 32-bit index has at most 32 levels. *)
Definition loop_fuel : nat := 33.

(** [a[i]] as an rvalue. *)
Definition load {A : Type} (a : list A) (i : Z) : outcome A :=
  if (0 <=? i) && (i <? Z.of_nat (length a))
  then match a !! Z.to_nat i with Some x => Ret x | None => Undefined end
  else Undefined.

(** [a[i] = x]. *)
Definition store {A : Type} (a : list A) (i : Z) (x : A) : outcome (list A) :=
  if (0 <=? i) && (i <? Z.of_nat (length a))
  then Ret (<[Z.to_nat i := x]> a)
  else Undefined.

(** Dereferencing the base pointer of an array. *)
Definition deref {A : Type} (p : option (list A)) : outcome (list A) :=
  match p with
  | Some a => Ret a
  | None => Undefined
  end.

(** ** include/event_queue.c *)

Module EventQueue.

(** [struct event].  [occur] and [data] are addresses the queue never
    looks at. *)
Record event : Type := Event {
  when : Z;
  occur : Z;
  data : Z
}.

(** [struct event_queue].  [buf] is the field [data] of the source (the
    name [data] is taken by [struct event]). *)
Record event_queue : Type := EventQueue {
  count : Z;
  cap : Z;
  buf : option (list event)
}.

(** [#define EVENT_CMP(a, b) (((a).when) <= ((b).when))] *)
Definition EVENT_CMP (a b : event) : bool := when a <=? when b.

(** The content of a cell nobody wrote yet when the allocator's answer
    does not cover it. *)
Definition blank : event := Event 0 0 0.

(** [malloc(n * sizeof(struct event))].  [fresh] is the allocator's answer:
    [None] when it returns NULL, otherwise the indeterminate content of
    the new cells. *)
Definition malloc (fresh : option (list event)) (n : Z) : option (list event) :=
  match fresh with
  | None => None
  | Some junk => Some (resize (Z.to_nat n) blank junk)
  end.

(** [realloc(p, n * sizeof(struct event))]: on success the old cells are
    kept (as many as fit) and the rest comes from the allocator; on
    failure NULL is returned and the old block stays where it was. *)
Definition realloc (fresh : option (list event)) (p : option (list event)) (n : Z)
  : option (list event) :=
  match fresh with
  | None => None
  | Some junk => Some (resize (Z.to_nat n) blank (default [] p ++ junk))
  end.

(** [event_queue_init]: the returned pair is the [int] result and the
    queue the pointer argument refers to afterwards. *)
Definition event_queue_init (fresh : option (list event)) (cap : Z) : Z * event_queue :=
  let queue := EventQueue 0 cap (malloc fresh cap) in
  match buf queue with
  | None => (1, queue)
  | Some _ => (0, queue)
  end.

(** The [for] loop of [event_queue_push] together with the assignment
    that follows it: [a] is [h->data], the result is the array after
    [h->data[index] = value]. *)
Fixpoint sift_up (fuel : nat) (a : list event) (value : event) (index : Z)
  : outcome (list event) :=
  match fuel with
  | O => OutOfFuel
  | S fuel =>
      if index =? 0 then store a index value
      else
        let parent := Z.shiftr (index - 1) 1 in
        p ← load a parent;
        if EVENT_CMP p value then store a index value
        else
          a ← store a index p;
          sift_up fuel a value parent
  end.

(** The body of the [if] of [event_queue_push]: [h->cap *= 2] and
    [h->data = realloc(...)]. *)
Definition grow (fresh : option (list event)) (h : event_queue) : event_queue :=
  let cap' := wrap (cap h * 2) in
  EventQueue (count h) cap' (realloc fresh (buf h) cap').

(** [event_queue_push] after the [if]. *)
Definition insert (h : event_queue) (value : event) : outcome (Z * event_queue) :=
  let index := count h in
  let h := EventQueue (wrap (count h + 1)) (cap h) (buf h) in
  a ← deref (buf h);
  a ← sift_up loop_fuel a value index;
  Ret (0, EventQueue (count h) (cap h) (Some a)).

(** [event_queue_push].  [fresh] is what [realloc] answers if it is
    called. *)
Definition event_queue_push (fresh : option (list event)) (h : event_queue) (value : event)
  : outcome (Z * event_queue) :=
  if count h =? cap h then
    let h := grow fresh h in
    match buf h with
    | None => Ret (1, h)
    | Some _ => insert h value
    end
  else insert h value.

(** One round of the [for] loop of [event_queue_pop] up to the choice of
    [swap]: [None] when the loop is left because there is no child. *)
Definition choose_child (a : list event) (count index : Z) : outcome (option Z) :=
  let swap := wrap (wrap (Z.shiftl index 1) + 1) in
  if count <=? swap then Ret None
  else
    let other := wrap (swap + 1) in
    if other <? count then
      x ← load a other;
      y ← load a swap;
      if EVENT_CMP x y then Ret (Some other) else Ret (Some swap)
    else Ret (Some swap).

(** The [for] loop of [event_queue_pop] together with the assignment
    that follows it.  [temp] is a pointer into the array: it is kept as
    the index it points at and read through at every use. *)
Fixpoint sift_down (fuel : nat) (a : list event) (count temp index : Z)
  : outcome (list event) :=
  match fuel with
  | O => OutOfFuel
  | S fuel =>
      c ← choose_child a count index;
      match c with
      | None => t ← load a temp; store a index t
      | Some swap =>
          t ← load a temp;
          y ← load a swap;
          if EVENT_CMP t y then store a index t
          else
            a ← store a index y;
            sift_down fuel a count temp swap
      end
  end.

(** [event_queue_pop]: the returned pair is the event and the queue
    afterwards. *)
Definition event_queue_pop (h : event_queue) : outcome (event * event_queue) :=
  a ← deref (buf h);
  result ← load a 0;
  let h := EventQueue (wrap (count h - 1)) (cap h) (buf h) in
  let temp := count h in
  a ← sift_down loop_fuel a (count h) temp 0;
  Ret (result, EventQueue (count h) (cap h) (Some a)).

(** *** The vocabulary of the specification *)

(** [h->data[i]] *)
Definition cell (h : event_queue) (i : Z) : outcome event :=
  a ← deref (buf h); load a i.

(** The heap property over the [count] elements of the queue. *)
Definition heap_property (h : event_queue) : Prop :=
  ∀ i p c, 0 < i < count h →
    cell h ((i - 1) / 2) = Ret p → cell h i = Ret c → when p <= when c.

(** The events the queue holds: the first [count] cells of the buffer. *)
Definition live (h : event_queue) : list event :=
  take (Z.to_nat (count h)) (default [] (buf h)).

(** The representation invariant of [struct event_queue]: the buffer is
    allocated with [cap] cells and [count] of them are in use. *)
Definition wf (h : event_queue) : Prop :=
  ∃ a, buf h = Some a ∧ Z.of_nat (length a) = cap h ∧
       0 <= count h <= cap h ∧ cap h < 2 ^ 32.

(** Two queues with the same count, the same capacity and the same
    sequence of stored events. *)
Definition same_contents (h1 h2 : event_queue) : Prop :=
  count h1 = count h2 ∧ cap h1 = cap h2 ∧ live h1 = live h2.

(** What a caller asks of the queue.  An insertion comes with the answer
    the allocator gives if it is asked. *)
Inductive request : Type :=
  | Insert (fresh : option (list event)) (value : event)
  | ExtractMin.

(** A caller that issues the requests in turn, extracts only when
    [count > 0], and gives up at the first insertion that does not
    return 0.  The result is the list of the extracted events and
    the final queue. *)
Fixpoint run (h : event_queue) (rs : list request) : option (list event * event_queue) :=
  match rs with
  | [] => Some ([], h)
  | Insert fresh value :: rs =>
      match event_queue_push fresh h value with
      | Ret (0, h) => run h rs
      | _ => None
      end
  | ExtractMin :: rs =>
      if 0 <? count h then
        match event_queue_pop h with
        | Ret (e, h) => '(es, h) ← run h rs; Some (e :: es, h)
        | _ => None
        end
      else None
  end.

(** Two requests that differ at most in the cells the allocator hands
    out, and two results of [run] with the same extracted events and
    the same contents of the final queue. *)
Definition same_request (r1 r2 : request) : Prop :=
  match r1, r2 with
  | Insert fresh1 v1, Insert fresh2 v2 => v1 = v2 ∧ (is_Some fresh1 ↔ is_Some fresh2)
  | ExtractMin, ExtractMin => True
  | _, _ => False
  end.

Definition same_result (o1 o2 : option (list event * event_queue)) : Prop :=
  match o1, o2 with
  | Some (es1, h1), Some (es2, h2) => es1 = es2 ∧ same_contents h1 h2
  | None, None => True
  | _, _ => False
  end.

(** The events a list of requests inserts. *)
Definition inserted (rs : list request) : list event :=
  omap (λ r, match r with Insert _ value => Some value | ExtractMin => None end) rs.

(** The insertions of the events of [l], each with the answer of the
    allocator that goes with it. *)
Definition inserts (l : list (option (list event) * event)) : list request :=
  (λ p, Insert p.1 p.2) <$> l.

(** The [(when, data)] pair of an event. *)
Definition pair_of (e : event) : Z * Z := (when e, data e).

End EventQueue.

(** ** include/queue.c *)

Module IntHeap.

(** [struct queue]: the array is supplied by the caller. *)
Record queue : Type := Queue {
  count : Z;
  data : option (list Z)
}.

(** [#define CMP(a, b) ((a) <= (b))] *)
Definition CMP (a b : Z) : bool := a <=? b.

(** The [for] loop of [queue_push] with the assignment after it. *)
Fixpoint sift_up (fuel : nat) (a : list Z) (value : Z) (index : Z) : outcome (list Z) :=
  match fuel with
  | O => OutOfFuel
  | S fuel =>
      if index =? 0 then store a index value
      else
        let parent := Z.shiftr (index - 1) 1 in
        p ← load a parent;
        if CMP p value then store a index value
        else
          a ← store a index p;
          sift_up fuel a value parent
  end.

(** [queue_push] *)
Definition queue_push (h : queue) (value : Z) : outcome queue :=
  let index := count h in
  let h := Queue (wrap (count h + 1)) (data h) in
  a ← deref (data h);
  a ← sift_up loop_fuel a value index;
  Ret (Queue (count h) (Some a)).

(** The choice of [swap] in one round of the loop of [queue_pop]. *)
Definition choose_child (a : list Z) (count index : Z) : outcome (option Z) :=
  let swap := wrap (wrap (Z.shiftl index 1) + 1) in
  if count <=? swap then Ret None
  else
    let other := wrap (swap + 1) in
    if other <? count then
      x ← load a other;
      y ← load a swap;
      if CMP x y then Ret (Some other) else Ret (Some swap)
    else Ret (Some swap).

(** The [for] loop of [queue_pop] with the assignment after it; here
    [temp] is a copy of the last element. *)
Fixpoint sift_down (fuel : nat) (a : list Z) (count temp index : Z) : outcome (list Z) :=
  match fuel with
  | O => OutOfFuel
  | S fuel =>
      c ← choose_child a count index;
      match c with
      | None => store a index temp
      | Some swap =>
          y ← load a swap;
          if CMP temp y then store a index temp
          else
            a ← store a index y;
            sift_down fuel a count temp swap
      end
  end.

(** [queue_pop] *)
Definition queue_pop (h : queue) : outcome (Z * queue) :=
  a ← deref (data h);
  result ← load a 0;
  let h := Queue (wrap (count h - 1)) (data h) in
  temp ← load a (count h);
  a ← sift_down loop_fuel a (count h) temp 0;
  Ret (result, Queue (count h) (Some a)).

(** *** The vocabulary of the specification *)

(** The keys the heap holds. *)
Definition live (h : queue) : list Z :=
  take (Z.to_nat (count h)) (default [] (data h)).

Inductive request : Type :=
  | Insert (value : Z)
  | ExtractMin.

(** A caller that issues the requests in turn and extracts only when
    [count > 0]. *)
Fixpoint run (h : queue) (rs : list request) : option (list Z * queue) :=
  match rs with
  | [] => Some ([], h)
  | Insert value :: rs =>
      match queue_push h value with
      | Ret h => run h rs
      | _ => None
      end
  | ExtractMin :: rs =>
      if 0 <? count h then
        match queue_pop h with
        | Ret (k, h) => '(ks, h) ← run h rs; Some (k :: ks, h)
        | _ => None
        end
      else None
  end.

(** [h->data[i]] *)
Definition cell (h : queue) (i : Z) : outcome Z :=
  a ← deref (data h); load a i.

(** The heap property over the [count] keys of the heap. *)
Definition heap_property (h : queue) : Prop :=
  ∀ i p c, 0 < i < count h →
    cell h ((i - 1) / 2) = Ret p → cell h i = Ret c → p <= c.

(** The number of cells of the array the caller supplied. *)
Definition capacity (h : queue) : Z := Z.of_nat (length (default [] (data h))).

(** The representation invariant of [struct queue]: there is an array
    and [count] of its cells are in use. *)
Definition wf (h : queue) : Prop :=
  is_Some (data h) ∧ 0 <= count h <= capacity h ∧ capacity h < 2 ^ 32.

(** The insertions of the keys [ks]. *)
Definition inserts (ks : list Z) : list request := Insert <$> ks.

End IntHeap.

(** ** The integer heap seen from the event queue *)

(** [(uint64_t)k] for an [int] [k], the conversion by which an event
    carries an [int] key as its timestamp: the value modulo [2^64]. *)
Definition to_uint64 (k : Z) : Z := k mod 2 ^ 64.

(** The [int] keys that are not negative: the ones [to_uint64] leaves
    as they are. *)
Definition timestamp_key (k : Z) : Prop := 0 <= k < 2 ^ 31.

(** A request on events that goes with a request on bare keys: an
    extraction with an extraction, and with the insertion of a key the
    insertion of an event that carries the key as its timestamp. *)
Definition carries (kr : IntHeap.request) (r : EventQueue.request) : Prop :=
  match kr, r with
  | IntHeap.Insert k, EventQueue.Insert _ value => EventQueue.when value = to_uint64 k
  | IntHeap.ExtractMin, EventQueue.ExtractMin => True
  | _, _ => False
  end.

(** The keys a list of requests inserts. *)
Definition inserted_keys (krs : list IntHeap.request) : list Z :=
  omap (λ kr, match kr with
              | IntHeap.Insert k => Some k
              | IntHeap.ExtractMin => None
              end) krs.

(** An integer heap and an event queue with the same key arrangement:
    equally many elements, arrays of the same size, and the timestamps
    of the one are the keys of the other as [uint64_t], cell by cell. *)
Definition same_keys (q : IntHeap.queue) (h : EventQueue.event_queue) : Prop :=
  IntHeap.count q = EventQueue.count h ∧
  ∃ b a, IntHeap.data q = Some b ∧ EventQueue.buf h = Some a ∧
         length b = length a ∧
         EventQueue.when <$> EventQueue.live h = to_uint64 <$> IntHeap.live q.

(** The same with the numbers taken as they are.  For keys that satisfy
    [timestamp_key] this is [same_keys]; it is what the loops are
    compared on. *)
Definition same_cells (q : IntHeap.queue) (h : EventQueue.event_queue) : Prop :=
  IntHeap.count q = EventQueue.count h ∧
  ∃ b a, IntHeap.data q = Some b ∧ EventQueue.buf h = Some a ∧
         length b = length a ∧
         IntHeap.live q = EventQueue.when <$> EventQueue.live h.

(** The requests [rs], made on a queue of [n] elements with room for
    [room], never find the queue full at an insertion. *)
Fixpoint never_grows (n room : Z) (rs : list EventQueue.request) : bool :=
  match rs with
  | [] => true
  | EventQueue.Insert _ _ :: rs => (n <? room) && never_grows (n + 1) room rs
  | EventQueue.ExtractMin :: rs => never_grows (n - 1) room rs
  end.

(** The two callers end alike: both stop short, or both return, the
    timestamps of the extracted events being the extracted keys as
    [uint64_t], in the same order, and the heaps having the same key
    arrangement. *)
Definition same_extraction
    (o1 : option (list Z * IntHeap.queue))
    (o2 : option (list EventQueue.event * EventQueue.event_queue)) : Prop :=
  match o1, o2 with
  | Some (ks, q), Some (es, h) =>
      EventQueue.when <$> es = to_uint64 <$> ks ∧ same_keys q h
  | None, None => True
  | _, _ => False
  end.

(** Two outcomes of the same kind whose results are related. *)
Definition outcome_rel {A B : Type} (R : A → B → Prop) (m1 : outcome A) (m2 : outcome B)
  : Prop :=
  match m1, m2 with
  | Ret x, Ret y => R x y
  | Undefined, Undefined => True
  | OutOfFuel, OutOfFuel => True
  | _, _ => False
  end.

(** ** The heap algorithm of both files, over any element type

    [Heap.sift_up] and [Heap.sift_down] are the two loops with the
    comparison taken on a key of the element.  The loops of
    [event_queue.c] are the instance at [when], those of [queue.c] the
    instance at the identity; this is proved below, and the properties of
    the loops are proved once, here. *)

Module Heap.
Section Generic.
Context {A : Type} (key : A → Z).

Definition cmp (a b : A) : bool := key a <=? key b.

Fixpoint sift_up (fuel : nat) (a : list A) (value : A) (index : Z) : outcome (list A) :=
  match fuel with
  | O => OutOfFuel
  | S fuel =>
      if index =? 0 then store a index value
      else
        let parent := Z.shiftr (index - 1) 1 in
        p ← load a parent;
        if cmp p value then store a index value
        else
          a ← store a index p;
          sift_up fuel a value parent
  end.

Definition choose_child (a : list A) (count index : Z) : outcome (option Z) :=
  let swap := wrap (wrap (Z.shiftl index 1) + 1) in
  if count <=? swap then Ret None
  else
    let other := wrap (swap + 1) in
    if other <? count then
      x ← load a other;
      y ← load a swap;
      if cmp x y then Ret (Some other) else Ret (Some swap)
    else Ret (Some swap).

Fixpoint sift_down (fuel : nat) (a : list A) (count : Z) (temp : A) (index : Z)
  : outcome (list A) :=
  match fuel with
  | O => OutOfFuel
  | S fuel =>
      c ← choose_child a count index;
      match c with
      | None => store a index temp
      | Some swap =>
          y ← load a swap;
          if cmp temp y then store a index temp
          else
            a ← store a index y;
            sift_down fuel a count temp swap
      end
  end.

(** The heap property over the first [n] cells of [a]. *)
Definition heap_on (a : list A) (n : Z) : Prop :=
  ∀ i p c, 0 < i < n →
    load a ((i - 1) / 2) = Ret p → load a i = Ret c → key p <= key c.

(** The array with a hole at [i] into which [v] is being sifted up:
    the order holds wherever the hole is not the lower end, and both
    [v] and the element above the hole are below the children of the
    hole. *)
Definition up_inv (a : list A) (n i : Z) (v : A) : Prop :=
  (∀ j p c, 0 < j < n → j ≠ i →
     load a ((j - 1) / 2) = Ret p → load a j = Ret c → key p <= key c) ∧
  (∀ j c, 0 < j < n → (j - 1) / 2 = i → load a j = Ret c → key v <= key c) ∧
  (∀ j p c, 0 < j < n → (j - 1) / 2 = i → 0 < i →
     load a ((i - 1) / 2) = Ret p → load a j = Ret c → key p <= key c).

End Generic.
End Heap.

(** Two arrays of the same size that agree through [f] on the first
    [n] cells, except possibly at [hole]. *)
Definition agree_except {A B : Type} (f : A → B) (n : Z) (hole : option Z)
    (a : list A) (b : list B) : Prop :=
  length a = length b ∧
  ∀ j x, 0 <= j < n → Some j ≠ hole → load a j = Ret x → load b j = Ret (f x).

Definition agree {A B : Type} (f : A → B) (n : Z) : list A → list B → Prop :=
  agree_except f n None.

Import EventQueue.

(** ** Sample queues *)

Definition ev (w d : Z) : event := Event w 0 d.

(** A heap of three events in a buffer of four cells. *)
Definition sample_heap : event_queue :=
  EventQueue 3 4 (Some [ev 2 20; ev 5 50; ev 8 80; blank]).

(** A heap whose root has two children with the same timestamp. *)
Definition tie_heap : event_queue :=
  EventQueue 4 4 (Some [ev 1 10; ev 5 51; ev 5 52; ev 9 90]).

(** A queue that is full. *)
Definition full_queue : event_queue := EventQueue 1 1 (Some [ev 7 70]).

(** Queues as [event_queue_init] leaves them, with capacity 2 and 0. *)
Definition empty_queue : event_queue := (event_queue_init (Some []) 2).2.
Definition zero_queue : event_queue := (event_queue_init (Some []) 0).2.

(** [sample_heap] with something else in the cell that is not in use. *)
Definition sample_heap' : event_queue :=
  EventQueue 3 4 (Some [ev 2 20; ev 5 50; ev 8 80; ev 99 990]).

(** The integer heap with the keys of [sample_heap]. *)
Definition sample_int_heap : IntHeap.queue := IntHeap.Queue 3 (Some [2; 5; 8; 0]).


(** Insertions and extractions interleaved. *)
Definition interleaved : list request :=
  [Insert (Some []) (ev 5 50); Insert (Some []) (ev 2 20); ExtractMin;
   Insert (Some []) (ev 8 80); Insert (Some []) (ev 2 21); ExtractMin].

(** Requests under which [sample_heap] never has to grow. *)
Definition no_growth_requests : list request :=
  [ExtractMin; Insert None (ev 1 10); Insert None (ev 6 60); ExtractMin; ExtractMin].

(** An integer heap with no keys in an array of four cells, and keys
    to sort with it. *)
Definition empty_int_heap : IntHeap.queue := IntHeap.Queue 0 (Some [0; 0; 0; 0]).
Definition sample_keys : list Z := [5; -2; 8; 5].

(** An integer heap that is full. *)
Definition full_int_heap : IntHeap.queue := IntHeap.Queue 2 (Some [1; 4]).

(** Three insertions into a queue of capacity 2, the allocator
    answering with two cells when asked. *)
Definition growing_inserts : list (option (list event) * event) :=
  [(None, ev 5 50); (None, ev 2 20); (Some [ev 9 90; ev 9 91], ev 8 80)].

(** The requests on keys that go with [no_growth_requests]. *)
Definition no_growth_key_requests : list IntHeap.request :=
  [IntHeap.ExtractMin; IntHeap.Insert 1; IntHeap.Insert 6;
   IntHeap.ExtractMin; IntHeap.ExtractMin].

(** An integer heap with no keys in an array of two cells, the
    insertion of the keys -1 and 1 followed by two extractions, and
    the same with events that carry these keys. *)
Definition two_cell_int_heap : IntHeap.queue := IntHeap.Queue 0 (Some [0; 0]).

Definition negative_key_requests : list IntHeap.request :=
  [IntHeap.Insert (-1); IntHeap.Insert 1; IntHeap.ExtractMin; IntHeap.ExtractMin].

Definition negative_event_requests : list request :=
  [Insert None (ev (to_uint64 (-1)) 0); Insert None (ev (to_uint64 1) 0);
   ExtractMin; ExtractMin].

(** ** Basic facts on arrays *)

Section Arrays.
Context {A : Type}.
Implicit Types (a : list A) (i j : Z) (x : A).

Lemma load_Ret a i x :
  load a i = Ret x ↔ 0 <= i ∧ a !! Z.to_nat i = Some x.
Proof.
  unfold load. split.
  - destruct (0 <=? i) eqn:H0; [|done]. destruct (i <? _) eqn:H1; [|done]. simpl.
    destruct (a !! Z.to_nat i) eqn:E; [|done]. intros [= ->]. split; [lia|done].
  - intros [H0 E]. pose proof (lookup_lt_Some _ _ _ E) as Hlt.
    rewrite (proj2 (Z.leb_le _ _) H0).
    assert ((i <? Z.of_nat (length a)) = true) as -> by (apply Z.ltb_lt; lia).
    simpl. by rewrite E.
Qed.

Lemma load_bounds a i x : load a i = Ret x → 0 <= i < Z.of_nat (length a).
Proof.
  rewrite load_Ret. intros [H0 E]. apply lookup_lt_Some in E. lia.
Qed.

Lemma load_defined a i : 0 <= i < Z.of_nat (length a) → ∃ x, load a i = Ret x.
Proof.
  intros H. destruct (lookup_lt_is_Some_2 a (Z.to_nat i)) as [x Hx]; [lia|].
  exists x. apply load_Ret. split; [lia|done].
Qed.

Lemma load_no_fuel a i : load a i ≠ OutOfFuel.
Proof. unfold load. repeat case_match; done. Qed.

Lemma load_outside a i : ¬ (0 <= i < Z.of_nat (length a)) → load a i = Undefined.
Proof.
  intros H. unfold load.
  destruct (0 <=? i) eqn:H0; [|done]. destruct (i <? _) eqn:H1; [|done].
  apply Z.leb_le in H0. apply Z.ltb_lt in H1. lia.
Qed.

Lemma store_Ret a i x a' :
  store a i x = Ret a' ↔ 0 <= i < Z.of_nat (length a) ∧ a' = <[Z.to_nat i := x]> a.
Proof.
  unfold store. split.
  - destruct (0 <=? i) eqn:H0; [|done]. destruct (i <? _) eqn:H1; [|done]. simpl.
    intros [= <-]. apply Z.leb_le in H0. apply Z.ltb_lt in H1. done.
  - intros [[H0 H1] ->]. rewrite (proj2 (Z.leb_le _ _) H0), (proj2 (Z.ltb_lt _ _) H1). done.
Qed.

Lemma store_defined a i x :
  0 <= i < Z.of_nat (length a) → store a i x = Ret (<[Z.to_nat i := x]> a).
Proof. intros H. by apply store_Ret. Qed.

Lemma store_outside a i x : ¬ (0 <= i < Z.of_nat (length a)) → store a i x = Undefined.
Proof.
  intros H. unfold store.
  destruct (0 <=? i) eqn:H0; [|done]. destruct (i <? _) eqn:H1; [|done].
  apply Z.leb_le in H0. apply Z.ltb_lt in H1. lia.
Qed.

Lemma store_length a i x a' : store a i x = Ret a' → length a' = length a.
Proof. rewrite store_Ret. intros [_ ->]. apply length_insert. Qed.

Lemma load_store_eq a i x a' : store a i x = Ret a' → load a' i = Ret x.
Proof.
  rewrite store_Ret. intros [H ->]. apply load_Ret. split; [lia|].
  apply list_lookup_insert_eq. lia.
Qed.

Lemma load_store_ne a i x a' j : store a i x = Ret a' → j ≠ i → load a' j = load a j.
Proof.
  rewrite store_Ret. intros [H ->] Hne. unfold load. rewrite length_insert.
  destruct (0 <=? j) eqn:H0; [|done]. destruct (j <? _) eqn:H1; [|done]. simpl.
  apply Z.leb_le in H0. rewrite list_lookup_insert_ne; [done|lia].
Qed.

End Arrays.

(** ** Unsigned index arithmetic *)

Lemma parent_spec i : 0 < i → Z.shiftr (i - 1) 1 = (i - 1) / 2.
Proof. intros. by rewrite Z.shiftr_div_pow2. Qed.

Lemma left_child_spec i :
  0 <= i < 2 ^ 31 → wrap (wrap (Z.shiftl i 1) + 1) = 2 * i + 1.
Proof.
  intros H. unfold wrap, UINT_MOD, UINT_WIDTH.
  rewrite Z.shiftl_mul_pow2 by lia.
  rewrite (Z.mod_small (i * 2 ^ 1)) by lia. rewrite Z.mod_small; lia.
Qed.

Lemma wrap_small z : 0 <= z < 2 ^ 32 → wrap z = z.
Proof. intros. unfold wrap, UINT_MOD, UINT_WIDTH. by apply Z.mod_small. Qed.

Lemma wrap_range z : 0 <= wrap z < 2 ^ 32.
Proof. unfold wrap, UINT_MOD, UINT_WIDTH. apply Z.mod_pos_bound. lia. Qed.

Ltac zlia := Z.div_mod_to_equations; lia.

(** Splitting a monadic step that returned. *)
Lemma bind_Ret {A B : Type} (m : outcome A) (k : A → outcome B) (b : B) :
  (m ≫= k) = Ret b → ∃ x, m = Ret x ∧ k x = Ret b.
Proof. destruct m; simpl; [eauto|done|done]. Qed.

Ltac inv_bind H :=
  let x := fresh "x" in
  let Hx := fresh "Hx" in
  apply bind_Ret in H; destruct H as (x & Hx & H).

(** ** The loops keep the heap property *)

Section HeapFacts.
Context {A : Type} (key : A → Z).
Implicit Types (a : list A) (i j n : Z) (v : A).


(** Filling the hole. *)
Lemma fill_heap a n i v a' :
  (∀ j p c, 0 < j < n → j ≠ i →
     load a ((j - 1) / 2) = Ret p → load a j = Ret c → key p <= key c) →
  (∀ j c, 0 < j < n → (j - 1) / 2 = i → load a j = Ret c → key v <= key c) →
  (0 < i → ∀ p, load a ((i - 1) / 2) = Ret p → key p <= key v) →
  0 <= i →
  store a i v = Ret a' →
  Heap.heap_on key a' n.
Proof.
  intros H1 H2 Hp Hi Hst j p c Hj Lp Lc.
  destruct (decide (j = i)) as [->|Hne].
  - rewrite (load_store_eq _ _ _ _ Hst) in Lc. injection Lc as <-.
    rewrite (load_store_ne _ _ _ _ _ Hst) in Lp by zlia. apply Hp; [lia|done].
  - rewrite (load_store_ne _ _ _ _ _ Hst) in Lc by done.
    destruct (decide ((j - 1) / 2 = i)) as [E|E].
    + rewrite E, (load_store_eq _ _ _ _ Hst) in Lp. injection Lp as <-. eauto.
    + rewrite (load_store_ne _ _ _ _ _ Hst) in Lp by done. eauto.
Qed.

Lemma up_inv_fill a n i v a' :
  Heap.up_inv key a n i v → 0 <= i →
  (0 < i → ∀ p, load a ((i - 1) / 2) = Ret p → key p <= key v) →
  store a i v = Ret a' →
  Heap.heap_on key a' n.
Proof. intros (H1 & H2 & _) Hi Hp Hst. by eapply fill_heap. Qed.

Lemma up_inv_step a n i v p a' :
  Heap.up_inv key a n i v → 0 < i →
  load a ((i - 1) / 2) = Ret p → key v < key p →
  store a i p = Ret a' →
  Heap.up_inv key a' n ((i - 1) / 2) v.
Proof.
  intros (H1 & H2 & H3) Hi Lp Hlt Hst.
  assert (Hpi : (i - 1) / 2 ≠ i) by zlia.
  assert (Lp' : load a' ((i - 1) / 2) = Ret p)
    by (by rewrite (load_store_ne _ _ _ _ _ Hst)).
  assert (Li' : load a' i = Ret p) by (by eapply load_store_eq).
  repeat split.
  - intros j q c Hj Hne Lq Lc.
    destruct (decide (j = i)) as [->|Hji].
    + rewrite Lp' in Lq. rewrite Li' in Lc. injection Lq as <-. injection Lc as <-. lia.
    + rewrite (load_store_ne _ _ _ _ _ Hst) in Lc by done.
      destruct (decide ((j - 1) / 2 = i)) as [E|E].
      * rewrite E, Li' in Lq. injection Lq as <-. eapply H3; eauto.
      * rewrite (load_store_ne _ _ _ _ _ Hst) in Lq by done. eauto.
  - intros j c Hj E Lc.
    destruct (decide (j = i)) as [->|Hji].
    + rewrite Li' in Lc. injection Lc as <-. lia.
    + rewrite (load_store_ne _ _ _ _ _ Hst) in Lc by done.
      assert (key p <= key c); [|lia]. apply (H1 j p c); [lia|done|by rewrite E|done].
  - intros j q c Hj E Hpos Lq Lc.
    rewrite (load_store_ne _ _ _ _ _ Hst) in Lq by zlia.
    assert (key q <= key p) by (apply (H1 ((i - 1) / 2) q p); [zlia|zlia|done|done]).
    destruct (decide (j = i)) as [->|Hji].
    + rewrite Li' in Lc. injection Lc as <-. done.
    + rewrite (load_store_ne _ _ _ _ _ Hst) in Lc by done.
      assert (key p <= key c); [|lia]. apply (H1 j p c); [lia|done|by rewrite E|done].
Qed.

Lemma sift_up_heap fuel : ∀ a n i v a',
  Heap.sift_up key fuel a v i = Ret a' →
  0 <= i → Heap.up_inv key a n i v →
  Heap.heap_on key a' n.
Proof.
  induction fuel as [|fuel IH]; intros a n i v a' Hrun Hi Hinv; [done|].
  simpl in Hrun. destruct (i =? 0) eqn:E0.
  - apply Z.eqb_eq in E0. subst i.
    eapply up_inv_fill; eauto. lia.
  - apply Z.eqb_neq in E0. rewrite parent_spec in Hrun by lia.
    inv_bind Hrun. unfold Heap.cmp in Hrun.
    destruct (key x <=? key v) eqn:Ecmp.
    + apply Z.leb_le in Ecmp. eapply up_inv_fill; eauto.
      intros _ p Lp. rewrite Hx in Lp. by injection Lp as <-.
    + apply Z.leb_gt in Ecmp. inv_bind Hrun.
      eapply IH; [exact Hrun|zlia|].
      eapply up_inv_step; eauto. lia.
Qed.

(** What the chosen child is, as long as the index arithmetic does
    not wrap. *)
Lemma choose_child_spec a n i c :
  0 <= i < 2 ^ 31 → n < 2 ^ 32 →
  Heap.choose_child key a n i = Ret c →
  match c with
  | None => n <= 2 * i + 1
  | Some s =>
      s < n ∧ (s = 2 * i + 1 ∨ s = 2 * i + 2) ∧
      ∀ y j c', 0 < j < n → (j - 1) / 2 = i →
        load a s = Ret y → load a j = Ret c' → key y <= key c'
  end.
Proof.
  intros Hi Hn. unfold Heap.choose_child. rewrite left_child_spec by done.
  destruct (n <=? 2 * i + 1) eqn:E1.
  { intros [= <-]. by apply Z.leb_le in E1. }
  apply Z.leb_gt in E1. rewrite wrap_small by lia.
  destruct (2 * i + 1 + 1 <? n) eqn:E2.
  - apply Z.ltb_lt in E2. intros H. inv_bind H. inv_bind H. rename x0 into y.
    unfold Heap.cmp in H. destruct (key x <=? key y) eqn:Ecmp; injection H as <-.
    + apply Z.leb_le in Ecmp. split; [lia|]. split; [lia|].
      intros y' j c' Hj Hpar Ly Lc.
      assert (j = 2 * i + 1 ∨ j = 2 * i + 1 + 1) as [->| ->] by zlia.
      * rewrite Hx in Ly. rewrite Hx0 in Lc. injection Ly as <-. injection Lc as <-. done.
      * rewrite Hx in Ly. rewrite Hx in Lc. injection Ly as <-. injection Lc as <-. lia.
    + apply Z.leb_gt in Ecmp. split; [lia|]. split; [lia|].
      intros y' j c' Hj Hpar Ly Lc.
      assert (j = 2 * i + 1 ∨ j = 2 * i + 1 + 1) as [->| ->] by zlia.
      * rewrite Hx0 in Ly. rewrite Hx0 in Lc. injection Ly as <-. injection Lc as <-. lia.
      * rewrite Hx0 in Ly. rewrite Hx in Lc. injection Ly as <-. injection Lc as <-. lia.
  - apply Z.ltb_ge in E2. intros [= <-]. split; [lia|]. split; [lia|].
    intros y j c' Hj Hpar Ly Lc.
    assert (j = 2 * i + 1) as -> by zlia.
    rewrite Ly in Lc. injection Lc as <-. lia.
Qed.

Lemma sift_down_heap fuel : ∀ a n i t a',
  Heap.sift_down key fuel a n t i = Ret a' →
  0 <= i → i < n ∨ i = 0 → n <= 2 ^ 31 →
  Heap.heap_on key a n →
  (0 < i → ∀ p, load a ((i - 1) / 2) = Ret p → key p <= key t) →
  Heap.heap_on key a' n.
Proof.
  induction fuel as [|fuel IH]; intros a n i t a' Hrun Hi Hin Hn Hheap Hpar; [done|].
  simpl in Hrun. inv_bind Hrun. rename x into c.
  apply choose_child_spec in Hx; [|lia..].
  destruct c as [s|].
  - destruct Hx as (Hs & Hsi & Hmin).
    inv_bind Hrun. rename x into y. unfold Heap.cmp in Hrun.
    destruct (key t <=? key y) eqn:Ecmp.
    + apply Z.leb_le in Ecmp.
      eapply fill_heap; [| |exact Hpar|exact Hi|exact Hrun].
      * intros j p c Hj _. by apply Hheap.
      * intros j c Hj E Lc. specialize (Hmin y j c Hj E Hx Lc). lia.
    + apply Z.leb_gt in Ecmp. inv_bind Hrun. rename x into a1.
      assert (Hsi' : (s - 1) / 2 = i) by zlia.
      destruct (load_defined a i) as [z Lz].
      { apply store_Ret in Hx0. tauto. }
      assert (key z <= key y) by (apply (Hheap s z y); [lia|by rewrite Hsi'|done]).
      eapply (IH a1 n s t a' Hrun); [lia|lia|done| |].
      * eapply fill_heap; [| | |exact Hi|exact Hx0].
        -- intros j p c Hj _. by apply Hheap.
        -- intros j c Hj E Lc. by apply (Hmin y j c).
        -- intros Hpos p Lp. assert (key p <= key z); [|lia]. apply (Hheap i p z); [lia|done|done].
      * intros _ p. rewrite Hsi', (load_store_eq _ _ _ _ Hx0). intros [= <-]. lia.
  - eapply fill_heap; [| |exact Hpar|exact Hi|exact Hrun].
    + intros j p c Hj _. by apply Hheap.
    + intros j c Hj E Lc. zlia.
Qed.

End HeapFacts.

(** ** The loops permute the array *)

Section Permutations.
Context {A : Type}.
Implicit Types (l : list A) (x y : A).

Lemma insert_Permutation l i x y :
  l !! i = Some x → y :: l ≡ₚ x :: <[i:=y]> l.
Proof.
  revert i. induction l as [|z l IH]; intros [|i] H; simplify_eq/=.
  - apply Permutation_swap.
  - etrans; [apply Permutation_swap|].
    etrans; [apply Permutation_skip, (IH i H)|]. apply Permutation_swap.
Qed.

(** Moving a cell into the hole moves the hole. *)
Lemma move_hole_Permutation l i j x y :
  (i < length l)%nat → l !! j = Some y →
  <[j:=x]> (<[i:=y]> l) ≡ₚ <[i:=x]> l.
Proof.
  intros Hi Hj. destruct (decide (i = j)) as [->|Hne].
  { by rewrite list_insert_insert_eq. }
  destruct (lookup_lt_is_Some_2 l i Hi) as [z Hz].
  assert (H1 : x :: <[i:=y]> l ≡ₚ y :: <[j:=x]> (<[i:=y]> l)).
  { apply insert_Permutation. by rewrite list_lookup_insert_ne. }
  pose proof (insert_Permutation l i z y Hz) as H2.
  pose proof (insert_Permutation l i z x Hz) as H3.
  apply (Permutation_cons_inv (a := y)). rewrite <-H1.
  apply (Permutation_cons_inv (a := z)).
  transitivity (x :: z :: <[i:=y]> l); [apply Permutation_swap|].
  rewrite <-H2.
  transitivity (y :: x :: l); [apply Permutation_swap|].
  rewrite H3. apply Permutation_swap.
Qed.

End Permutations.

Section LoopFacts.
Context {A : Type} (key : A → Z).
Implicit Types (a : list A) (i j n : Z) (v : A).

Lemma sift_up_bounds fuel a v i a' :
  Heap.sift_up key fuel a v i = Ret a' → 0 <= i < Z.of_nat (length a).
Proof.
  destruct fuel as [|fuel]; [done|]. simpl.
  destruct (i =? 0) eqn:E0.
  - intros H. apply store_Ret in H. tauto.
  - intros H. inv_bind H. destruct (Heap.cmp key x v).
    + apply store_Ret in H. tauto.
    + inv_bind H. apply store_Ret in Hx0. tauto.
Qed.

Lemma sift_up_length fuel : ∀ a v i a',
  Heap.sift_up key fuel a v i = Ret a' → length a' = length a.
Proof.
  induction fuel as [|fuel IH]; intros a v i a' H; [done|]. simpl in H.
  destruct (i =? 0).
  - by eapply store_length.
  - inv_bind H. destruct (Heap.cmp key x v).
    + by eapply store_length.
    + inv_bind H. rewrite (IH _ _ _ _ H). by eapply store_length.
Qed.

Lemma sift_up_Permutation fuel (m : nat) : ∀ a v i a',
  Heap.sift_up key fuel a v i = Ret a' → 0 <= i < Z.of_nat m →
  take m a' ≡ₚ take m (<[Z.to_nat i := v]> a).
Proof.
  induction fuel as [|fuel IH]; intros a v i a' H Hi; [done|]. simpl in H.
  destruct (i =? 0) eqn:E0.
  { apply store_Ret in H as [_ ->]. done. }
  apply Z.eqb_neq in E0. rewrite parent_spec in H by lia.
  inv_bind H. rename x into p. destruct (Heap.cmp key p v).
  { apply store_Ret in H as [_ ->]. done. }
  inv_bind H. rename x into a1.
  rewrite (IH _ _ _ _ H) by zlia.
  apply store_Ret in Hx0 as [Hb ->]. apply load_Ret in Hx as [_ Hp].
  rewrite !take_insert_lt by zlia.
  apply move_hole_Permutation.
  - rewrite length_take. lia.
  - rewrite lookup_take_lt by zlia. done.
Qed.

Lemma choose_child_range a n i s :
  Heap.choose_child key a n i = Ret (Some s) → 0 <= s < n.
Proof.
  unfold Heap.choose_child.
  set (swap := wrap (wrap (Z.shiftl i 1) + 1)).
  pose proof (wrap_range (wrap (Z.shiftl i 1) + 1)).
  pose proof (wrap_range (swap + 1)).
  destruct (n <=? swap) eqn:E1; [done|]. apply Z.leb_gt in E1.
  destruct (wrap (swap + 1) <? n) eqn:E2.
  - apply Z.ltb_lt in E2. intros H1. inv_bind H1. inv_bind H1.
    destruct (Heap.cmp key x x0); injection H1 as <-; lia.
  - intros [= <-]. fold swap. lia.
Qed.

Lemma choose_child_none a n i :
  n <= 0 → Heap.choose_child key a n i = Ret None.
Proof.
  intros Hn. unfold Heap.choose_child.
  pose proof (wrap_range (wrap (Z.shiftl i 1) + 1)).
  destruct (n <=? _) eqn:E1; [done|]. apply Z.leb_gt in E1. lia.
Qed.


Lemma sift_down_length fuel : ∀ a n t i a',
  Heap.sift_down key fuel a n t i = Ret a' → length a' = length a.
Proof.
  induction fuel as [|fuel IH]; intros a n t i a' H; [done|]. simpl in H.
  inv_bind H. destruct x as [s|]; [|by eapply store_length].
  inv_bind H. destruct (Heap.cmp key t x); [by eapply store_length|].
  inv_bind H. rewrite (IH _ _ _ _ _ H). by eapply store_length.
Qed.

Lemma sift_down_Permutation fuel : ∀ a n t i a',
  Heap.sift_down key fuel a n t i = Ret a' → 0 <= i → i < n ∨ n <= 0 →
  take (Z.to_nat n) a' ≡ₚ take (Z.to_nat n) (<[Z.to_nat i := t]> a).
Proof.
  induction fuel as [|fuel IH]; intros a n t i a' H Hi Hin; [done|]. simpl in H.
  inv_bind H. destruct x as [s|].
  2:{ apply store_Ret in H as [_ ->]. done. }
  pose proof (choose_child_range _ _ _ _ Hx) as Hs.
  inv_bind H. rename x into y. destruct (Heap.cmp key t y).
  { apply store_Ret in H as [_ ->]. done. }
  inv_bind H. rename x into a1.
  rewrite (IH _ _ _ _ _ H) by lia.
  apply store_Ret in Hx1 as [Hb ->]. apply load_Ret in Hx0 as [_ Hy].
  rewrite !take_insert_lt by lia.
  apply move_hole_Permutation.
  - rewrite length_take. lia.
  - rewrite lookup_take_lt by lia. done.
Qed.

(** *** The loops return *)

Lemma sift_up_defined fuel : ∀ a v i,
  0 <= i < Z.of_nat (length a) → i + 1 < 2 ^ Z.of_nat fuel →
  ∃ a', Heap.sift_up key fuel a v i = Ret a'.
Proof.
  induction fuel as [|fuel IH]; intros a v i Hi Hfuel.
  { simpl in Hfuel. lia. }
  rewrite Nat2Z.inj_succ, Z.pow_succ_r in Hfuel by lia.
  simpl. destruct (i =? 0) eqn:E0.
  { rewrite store_defined by done. eauto. }
  apply Z.eqb_neq in E0. rewrite parent_spec by lia.
  destruct (load_defined a ((i - 1) / 2)) as [p ->]; [zlia|]. simpl.
  destruct (Heap.cmp key p v).
  { rewrite store_defined by done. eauto. }
  rewrite store_defined by done. simpl.
  apply IH; [rewrite length_insert; zlia|zlia].
Qed.

Lemma choose_child_defined a n i :
  0 <= i < 2 ^ 31 → n < 2 ^ 32 → n <= Z.of_nat (length a) →
  ∃ c, Heap.choose_child key a n i = Ret c.
Proof.
  intros Hi Hn Hlen. unfold Heap.choose_child. rewrite left_child_spec by done.
  destruct (n <=? 2 * i + 1) eqn:E1; [eauto|]. apply Z.leb_gt in E1.
  rewrite wrap_small by lia.
  destruct (2 * i + 1 + 1 <? n) eqn:E2; [|eauto]. apply Z.ltb_lt in E2.
  destruct (load_defined a (2 * i + 1 + 1)) as [x ->]; [lia|].
  destruct (load_defined a (2 * i + 1)) as [y ->]; [lia|]. simpl.
  destruct (Heap.cmp key x y); eauto.
Qed.

Lemma sift_down_defined fuel : ∀ a n t i,
  0 <= i < Z.of_nat (length a) → i < n ∨ i = 0 →
  0 <= n <= Z.of_nat (length a) → n <= 2 ^ 31 →
  n + 1 < (i + 1) * 2 ^ Z.of_nat fuel →
  ∃ a', Heap.sift_down key fuel a n t i = Ret a'.
Proof.
  induction fuel as [|fuel IH]; intros a n t i Hi Hin Hn Hn31 Hfuel.
  { simpl in Hfuel. lia. }
  rewrite Nat2Z.inj_succ, Z.pow_succ_r in Hfuel by lia.
  simpl.
  destruct (choose_child_defined a n i) as [c Hc]; [lia..|]. rewrite Hc. simpl.
  destruct c as [s|]; [|rewrite store_defined by done; eauto].
  apply choose_child_spec in Hc as (Hs & Hsi & _); [|lia..].
  destruct (load_defined a s) as [y ->]; [lia|]. simpl.
  destruct (Heap.cmp key t y); [rewrite store_defined by done; eauto|].
  rewrite store_defined by done. simpl.
  apply IH; rewrite ?length_insert; [lia..|].
  assert (0 < 2 ^ Z.of_nat fuel) by (apply Z.pow_pos_nonneg; lia).
  nia.
Qed.

(** *** The root of a heap is a minimum *)

Lemma heap_on_root a n e :
  Heap.heap_on key a n → load a 0 = Ret e →
  ∀ i x, 0 <= i < n → load a i = Ret x → key e <= key x.
Proof.
  intros Hheap He.
  assert (∀ k : nat, ∀ i x, 0 <= i <= Z.of_nat k → i < n →
            load a i = Ret x → key e <= key x) as Hind.
  { induction k as [|k IH]; intros i x Hi Hin Lx.
    - assert (i = 0) as -> by lia. rewrite He in Lx. injection Lx as <-. lia.
    - destruct (decide (i = 0)) as [->|Hne].
      { rewrite He in Lx. injection Lx as <-. lia. }
      pose proof (load_bounds _ _ _ Lx) as Hb.
      destruct (load_defined a ((i - 1) / 2)) as [p Lp]; [zlia|].
      assert (key e <= key p) by (apply (IH ((i - 1) / 2) p); [zlia|zlia|done]).
      assert (key p <= key x) by (apply (Hheap i p x); [lia|done|done]).
      lia. }
  intros i x Hi Lx. apply (Hind (Z.to_nat i) i x); [lia|lia|done].
Qed.

End LoopFacts.

(** ** The loops over two arrays that agree on their keys

    [f] maps the elements of one array to those of the other and keeps
    the key.  Two arrays of the same size that agree through [f] on the
    first [n] cells are taken by either loop to two such arrays, whether
    or not the loop returns. *)

Section Simulation.
Context {A B : Type} (keyA : A → Z) (keyB : B → Z) (f : A → B).
Context (Hkey : ∀ x, keyB (f x) = keyA x).
Implicit Types (a : list A) (b : list B) (i j n : Z).


Lemma outcome_rel_bind {X Y X' Y' : Type} (R : X → Y → Prop) (S : X' → Y' → Prop)
    (m1 : outcome X) (m2 : outcome Y) (k1 : X → outcome X') (k2 : Y → outcome Y') :
  outcome_rel R m1 m2 →
  (∀ x y, R x y → outcome_rel S (k1 x) (k2 y)) →
  outcome_rel S (m1 ≫= k1) (m2 ≫= k2).
Proof. destruct m1, m2; simpl; try done. intros HR Hk. by apply Hk. Qed.

Lemma load_sim n hole a b j :
  agree_except f n hole a b → 0 <= j < n → Some j ≠ hole →
  outcome_rel (λ x y, y = f x) (load a j) (load b j).
Proof.
  intros [Hlen Hag] Hj Hne. destruct (load a j) as [x| |] eqn:E.
  - by rewrite (Hag j x).
  - destruct (decide (0 <= j < Z.of_nat (length a))) as [Hb|Hb].
    + destruct (load_defined a j Hb) as [x Hx]. congruence.
    + rewrite load_outside; [done|]. by rewrite <-Hlen.
  - by apply load_no_fuel in E.
Qed.

Lemma store_sim n hole a b i x :
  agree_except f n hole a b → hole = None ∨ hole = Some i →
  outcome_rel (agree f n) (store a i x) (store b i (f x)).
Proof.
  intros [Hlen Hag] Hhole.
  destruct (decide (0 <= i < Z.of_nat (length a))) as [Hb|Hb].
  - rewrite !store_defined by (by rewrite <-?Hlen). simpl. split.
    { by rewrite !length_insert. }
    intros j y Hj _.
    destruct (decide (j = i)) as [->|Hne].
    + rewrite (load_store_eq a i x) by (by apply store_defined).
      intros [= <-]. eapply load_store_eq. apply store_defined. by rewrite <-Hlen.
    + rewrite (load_store_ne a i x _ j) by (by apply store_defined || done).
      rewrite (load_store_ne b i (f x) _ j);
        [|apply store_defined; by rewrite <-Hlen|done].
      apply Hag; [done|]. destruct Hhole as [->| ->]; [done|congruence].
  - rewrite !store_outside by (by rewrite <-?Hlen). done.
Qed.

Lemma agree_weaken n hole a b : agree f n a b → agree_except f n hole a b.
Proof. intros [Hlen Hag]. split; [done|]. intros j x Hj _. by apply Hag. Qed.

Lemma cmp_sim x y : Heap.cmp keyB (f x) (f y) = Heap.cmp keyA x y.
Proof. unfold Heap.cmp. by rewrite !Hkey. Qed.

Lemma sift_up_sim n fuel : ∀ a b v i,
  agree_except f n (Some i) a b → 0 <= i <= n →
  outcome_rel (agree f n) (Heap.sift_up keyA fuel a v i) (Heap.sift_up keyB fuel b (f v) i).
Proof.
  induction fuel as [|fuel IH]; intros a b v i Hag Hi; [done|].
  simpl. destruct (i =? 0) eqn:E0.
  { eapply store_sim; eauto. }
  apply Z.eqb_neq in E0. rewrite parent_spec by lia.
  eapply outcome_rel_bind.
  { eapply load_sim; [exact Hag|zlia|]. intros [= E]. zlia. }
  intros p ? ->. rewrite cmp_sim. destruct (Heap.cmp keyA p v).
  { eapply store_sim; eauto. }
  eapply outcome_rel_bind.
  { eapply store_sim; eauto. }
  intros a1 b1 Hag1. apply IH; [by apply agree_weaken|zlia].
Qed.

Lemma choose_child_sim n a b i :
  agree f n a b →
  outcome_rel (λ c c', c' = c ∧ ∀ s, c = Some s → 0 <= s < n)
    (Heap.choose_child keyA a n i) (Heap.choose_child keyB b n i).
Proof.
  intros Hag. unfold Heap.choose_child.
  set (swap := wrap (wrap (Z.shiftl i 1) + 1)).
  pose proof (wrap_range (wrap (Z.shiftl i 1) + 1)).
  pose proof (wrap_range (swap + 1)).
  destruct (n <=? swap) eqn:E1; [done|]. apply Z.leb_gt in E1.
  destruct (wrap (swap + 1) <? n) eqn:E2.
  2:{ simpl. split; [done|]. intros s [= <-]. fold swap. lia. }
  apply Z.ltb_lt in E2.
  eapply outcome_rel_bind.
  { eapply load_sim; [exact Hag|lia|done]. }
  intros x ? ->. eapply outcome_rel_bind.
  { eapply load_sim; [exact Hag|fold swap; lia|done]. }
  intros y ? ->. rewrite cmp_sim.
  destruct (Heap.cmp keyA x y); (split; [done|]); intros s [= <-]; fold swap; lia.
Qed.

Lemma sift_down_sim n fuel : ∀ a b t i,
  agree f n a b →
  outcome_rel (agree f n)
    (Heap.sift_down keyA fuel a n t i) (Heap.sift_down keyB fuel b n (f t) i).
Proof.
  induction fuel as [|fuel IH]; intros a b t i Hag; [done|].
  simpl. eapply outcome_rel_bind; [by apply choose_child_sim|].
  intros c ? [-> Hc]. destruct c as [s|]; [|eapply store_sim; eauto].
  specialize (Hc s eq_refl).
  eapply outcome_rel_bind.
  { eapply load_sim; [exact Hag|lia|done]. }
  intros y ? ->. rewrite cmp_sim. destruct (Heap.cmp keyA t y).
  { eapply store_sim; eauto. }
  eapply outcome_rel_bind.
  { eapply store_sim; eauto. }
  intros a1 b1 Hag1. by apply IH.
Qed.

End Simulation.

(** ** The loops of the two files are the loops above *)

Lemma event_sift_up_eq fuel a v i :
  sift_up fuel a v i = Heap.sift_up when fuel a v i.
Proof. reflexivity. Qed.

Lemma event_choose_child_eq a n i :
  choose_child a n i = Heap.choose_child when a n i.
Proof. reflexivity. Qed.

(** [temp] points at cell [n], which the loop never writes: reading
    through it gives the element that was there at the start. *)
Lemma event_sift_down_eq fuel : ∀ a n t i,
  load a n = Ret t → i < n ∨ n <= 0 →
  sift_down fuel a n n i = Heap.sift_down when fuel a n t i.
Proof.
  induction fuel as [|fuel IH]; intros a n t i Ht Hi; [done|].
  simpl. rewrite event_choose_child_eq.
  destruct (Heap.choose_child when a n i) as [[s|]| |] eqn:Ec; simpl; try done.
  2:{ by rewrite Ht. }
  apply choose_child_range in Ec.
  rewrite Ht. simpl. destruct (load a s) as [y| |]; simpl; try done.
  unfold EVENT_CMP, Heap.cmp. destruct (when t <=? when y); [done|].
  destruct (store a i y) as [a1| |] eqn:Est; simpl; try done.
  apply IH; [|lia]. rewrite (load_store_ne _ _ _ _ _ Est); [done|lia].
Qed.

Lemma int_sift_up_eq fuel a v i :
  IntHeap.sift_up fuel a v i = Heap.sift_up id fuel a v i.
Proof. reflexivity. Qed.

Lemma int_sift_down_eq fuel a n t i :
  IntHeap.sift_down fuel a n t i = Heap.sift_down id fuel a n t i.
Proof. reflexivity. Qed.

(** ** The operations of the event queue *)

Lemma loop_fuel_enough n : n < 2 ^ 32 → n + 1 < 2 ^ Z.of_nat loop_fuel.
Proof. change (2 ^ Z.of_nat loop_fuel) with (2 ^ 33). lia. Qed.

#[local] Opaque loop_fuel.

Lemma insert_unfold h v a :
  buf h = Some a →
  insert h v =
    a' ← Heap.sift_up when loop_fuel a v (count h);
    Ret (0, EventQueue (wrap (count h + 1)) (cap h) (Some a')).
Proof. intros E. unfold insert. simpl. rewrite E. reflexivity. Qed.

Lemma pop_unfold h a e t :
  buf h = Some a → load a 0 = Ret e → load a (wrap (count h - 1)) = Ret t →
  0 < wrap (count h - 1) ∨ wrap (count h - 1) <= 0 →
  event_queue_pop h =
    a' ← Heap.sift_down when loop_fuel a (wrap (count h - 1)) t 0;
    Ret (e, EventQueue (wrap (count h - 1)) (cap h) (Some a')).
Proof.
  intros E He Ht Hn. unfold event_queue_pop. rewrite E. simpl. rewrite He. simpl.
  by rewrite (event_sift_down_eq _ _ _ t).
Qed.

Lemma load_take {A : Type} (a : list A) (m : nat) j :
  0 <= j < Z.of_nat m → load (take m a) j = load a j.
Proof.
  intros Hj. unfold load. rewrite length_take, lookup_take_lt by lia.
  destruct (0 <=? j) eqn:E0; [|done]. simpl.
  destruct (j <? Z.of_nat (length a)) eqn:E1.
  - apply Z.ltb_lt in E1.
    by assert ((j <? Z.of_nat (m `min` length a)%nat) = true) as -> by (apply Z.ltb_lt; lia).
  - apply Z.ltb_ge in E1.
    by assert ((j <? Z.of_nat (m `min` length a)%nat) = false) as -> by (apply Z.ltb_ge; lia).
Qed.

Lemma heap_on_take {A : Type} (key : A → Z) (a b : list A) (m : nat) n :
  take m a = take m b → n <= Z.of_nat m →
  Heap.heap_on key a n → Heap.heap_on key b n.
Proof.
  intros Ht Hn Hheap i p c Hi Lp Lc.
  rewrite <-(load_take b m), <-Ht, load_take in Lp by zlia.
  rewrite <-(load_take b m), <-Ht, load_take in Lc by zlia.
  by apply (Hheap i p c).
Qed.

Lemma heap_property_buf h a :
  buf h = Some a → heap_property h ↔ Heap.heap_on when a (count h).
Proof.
  intros E. unfold heap_property, Heap.heap_on, cell. rewrite E. done.
Qed.

Lemma live_buf h a : buf h = Some a → live h = take (Z.to_nat (count h)) a.
Proof. intros E. unfold live. by rewrite E. Qed.

(** *** [event_queue_push] *)

Lemma push_inv fresh h v h' :
  wf h → event_queue_push fresh h v = Ret (0, h') →
  ∃ a a', Z.of_nat (length a) = cap h' ∧ cap h' < 2 ^ 32 ∧ count h < cap h' ∧
    take (Z.to_nat (count h)) a = live h ∧
    Heap.sift_up when loop_fuel a v (count h) = Ret a' ∧
    h' = EventQueue (count h + 1) (cap h') (Some a') ∧
    (cap h' = cap h ∨ count h = cap h ∧ cap h' = wrap (cap h * 2)).
Proof.
  intros (a0 & Hb & Hlen & Hc & Hcap) H. unfold event_queue_push in H.
  destruct (count h =? cap h) eqn:E.
  - apply Z.eqb_eq in E. unfold grow, realloc in H. rewrite Hb in H.
    destruct fresh as [junk|]; [|done]. cbn [buf default] in H.
    pose proof (wrap_range (cap h * 2)) as Hw.
    set (a := resize (Z.to_nat (wrap (cap h * 2))) blank (a0 ++ junk)) in *.
    rewrite (insert_unfold _ _ a) in H by done. cbn [count cap] in H.
    inv_bind H. rename x into a'. injection H as <-.
    pose proof (sift_up_bounds _ _ _ _ _ _ Hx) as Hin.
    assert (Z.of_nat (length a) = wrap (cap h * 2)) as Hla.
    { unfold a. rewrite length_resize. lia. }
    exists a, a'. cbn [count cap]. rewrite (wrap_small (count h + 1)) by lia.
    repeat split; try lia; try done.
    unfold a. rewrite take_resize_le, resize_le, take_app_le by (rewrite ?length_app; lia).
    by rewrite (live_buf h a0).
  - apply Z.eqb_neq in E. rewrite (insert_unfold _ _ a0) in H by done.
    inv_bind H. rename x into a'. injection H as <-.
    pose proof (sift_up_bounds _ _ _ _ _ _ Hx) as Hin.
    exists a0, a'. cbn [count cap]. rewrite (wrap_small (count h + 1)) by lia.
    repeat split; try lia; try done.
    all: try (by rewrite (live_buf h a0)).
Qed.

Lemma push_wf fresh h v h' :
  wf h → event_queue_push fresh h v = Ret (0, h') → wf h'.
Proof.
  intros Hwf H. pose proof Hwf as (a0 & _ & _ & Hc & _).
  destruct (push_inv _ _ _ _ Hwf H) as (a & a' & Hlen & Hcap & Hcnt & _ & Hup & Hh' & _).
  exists a'. rewrite Hh' in *. cbn [buf count cap] in *.
  rewrite (sift_up_length _ _ _ _ _ _ Hup). repeat split; try done; lia.
Qed.

Lemma push_count fresh h v h' :
  wf h → event_queue_push fresh h v = Ret (0, h') → count h' = count h + 1.
Proof.
  intros Hwf H.
  destruct (push_inv _ _ _ _ Hwf H) as (a & a' & _ & _ & _ & _ & _ & -> & _). done.
Qed.

Lemma push_heap fresh h v h' :
  wf h → heap_property h → event_queue_push fresh h v = Ret (0, h') → heap_property h'.
Proof.
  intros Hwf Hheap H. pose proof Hwf as (a0 & Hb & _ & Hc & _).
  destruct (push_inv _ _ _ _ Hwf H) as (a & a' & Hlen & Hcap & Hcnt & Hlive & Hup & Hh' & _).
  apply (heap_property_buf h' a'); [by rewrite Hh'|].
  rewrite Hh'. cbn [count].
  apply (sift_up_heap when _ _ _ _ _ _ Hup); [lia|].
  assert (Heap.heap_on when a (count h)) as Ha.
  { apply (heap_on_take when a0 a (Z.to_nat (count h))); [|lia|by apply heap_property_buf].
    by rewrite Hlive, (live_buf h a0). }
  repeat split.
  - intros j p c Hj Hne. apply Ha. lia.
  - intros j c Hj Hp. zlia.
  - intros j p c Hj Hp. zlia.
Qed.

Lemma push_live fresh h v h' :
  wf h → event_queue_push fresh h v = Ret (0, h') → live h' ≡ₚ v :: live h.
Proof.
  intros Hwf H. pose proof Hwf as (a0 & Hb & _ & Hc & _).
  destruct (push_inv _ _ _ _ Hwf H) as (a & a' & Hlen & Hcap & Hcnt & Hlive & Hup & Hh' & _).
  rewrite (live_buf h' a') by (by rewrite Hh'). rewrite Hh'. cbn [count].
  rewrite (sift_up_Permutation when _ _ _ _ _ _ Hup) by lia.
  replace (Z.to_nat (count h + 1)) with (S (Z.to_nat (count h))) by lia.
  rewrite (take_S_r _ _ v) by (apply list_lookup_insert_eq; lia).
  rewrite take_insert_ge by lia. rewrite Hlive.
  by rewrite Permutation_app_comm.
Qed.

(** An insertion returns 0 when there is room, and when there is none
    as long as the allocator answers and twice the capacity is still
    an [unsigned int] above the count. *)
Lemma push_defined fresh h v :
  wf h →
  count h < cap h ∨ (is_Some fresh ∧ 0 < cap h < 2 ^ 31) →
  ∃ h', event_queue_push fresh h v = Ret (0, h') ∧
        cap h' = if count h =? cap h then 2 * cap h else cap h.
Proof.
  intros (a0 & Hb & Hlen & Hc & Hcap) Hroom. unfold event_queue_push.
  destruct (count h =? cap h) eqn:E.
  - apply Z.eqb_eq in E. destruct Hroom as [?|[[junk ->] Hpos]]; [lia|].
    unfold grow, realloc. rewrite Hb. cbn [buf default].
    set (a := resize _ _ _).
    rewrite (insert_unfold _ _ a) by done. cbn [count cap].
    assert (wrap (cap h * 2) = 2 * cap h) as Hw by (rewrite wrap_small; lia).
    destruct (sift_up_defined when loop_fuel a v (count h)) as [a' ->].
    { unfold a. rewrite length_resize. lia. }
    { apply loop_fuel_enough. lia. }
    simpl. eexists. split; [done|]. done.
  - apply Z.eqb_neq in E. rewrite (insert_unfold _ _ a0) by done.
    destruct (sift_up_defined when loop_fuel a0 v (count h)) as [a' ->]; [lia| |].
    { apply loop_fuel_enough. lia. }
    simpl. eexists. split; done.
Qed.

(** *** [event_queue_pop] *)

Lemma pop_inv h :
  wf h → 0 < count h →
  ∃ a e t, buf h = Some a ∧ load a 0 = Ret e ∧ load a (count h - 1) = Ret t ∧
    event_queue_pop h =
      a' ← Heap.sift_down when loop_fuel a (count h - 1) t 0;
      Ret (e, EventQueue (count h - 1) (cap h) (Some a')).
Proof.
  intros (a & Hb & Hlen & Hc & Hcap) Hpos.
  destruct (load_defined a 0) as [e He]; [lia|].
  destruct (load_defined a (count h - 1)) as [t Ht]; [lia|].
  exists a, e, t. repeat split; try done.
  assert (wrap (count h - 1) = count h - 1) as Hw by (apply wrap_small; lia).
  pose proof (pop_unfold h a e t Hb He) as H. rewrite Hw in H.
  apply H; [done|lia].
Qed.

Lemma pop_defined h :
  wf h → 0 < count h → count h - 1 <= 2 ^ 31 →
  ∃ e h', event_queue_pop h = Ret (e, h').
Proof.
  intros Hwf Hpos Hsafe. pose proof Hwf as (a0 & Hb0 & Hlen & Hc & Hcap).
  destruct (pop_inv h Hwf Hpos) as (a & e & t & Hb & He & Ht & ->).
  assert (a = a0) as -> by congruence.
  destruct (sift_down_defined when loop_fuel a0 (count h - 1) t 0) as [a' ->];
    [lia..| |by eauto].
  rewrite Z.mul_1_l. apply loop_fuel_enough. lia.
Qed.

Lemma pop_wf h e h' :
  wf h → 0 < count h → event_queue_pop h = Ret (e, h') → wf h'.
Proof.
  intros Hwf Hpos H. pose proof Hwf as (a0 & Hb0 & Hlen & Hc & Hcap).
  destruct (pop_inv h Hwf Hpos) as (a & e' & t & Hb & He & Ht & Heq).
  assert (a = a0) as -> by congruence.
  rewrite Heq in H. inv_bind H. injection H as <- <-.
  exists x. cbn [buf count cap]. rewrite (sift_down_length _ _ _ _ _ _ _ Hx).
  repeat split; try done; lia.
Qed.

Lemma pop_count h e h' :
  wf h → 0 < count h → event_queue_pop h = Ret (e, h') → count h' = count h - 1.
Proof.
  intros Hwf Hpos H.
  destruct (pop_inv h Hwf Hpos) as (a & e' & t & Hb & He & Ht & Heq).
  rewrite Heq in H. inv_bind H. by injection H as <- <-.
Qed.

Lemma pop_heap h e h' :
  wf h → 0 < count h → count h - 1 <= 2 ^ 31 → heap_property h →
  event_queue_pop h = Ret (e, h') → heap_property h'.
Proof.
  intros Hwf Hpos Hsafe Hheap H.
  destruct (pop_inv h Hwf Hpos) as (a & e' & t & Hb & He & Ht & Heq).
  rewrite Heq in H. inv_bind H. injection H as <- <-.
  apply (heap_property_buf _ x); [done|]. cbn [count].
  apply (sift_down_heap when _ _ _ _ _ _ Hx); [lia|lia|lia| |lia].
  apply (heap_property_buf h a Hb) in Hheap.
  intros i p c Hi. apply Hheap. lia.
Qed.

Lemma pop_live h e h' :
  wf h → 0 < count h → event_queue_pop h = Ret (e, h') → live h ≡ₚ e :: live h'.
Proof.
  intros Hwf Hpos H.
  destruct (pop_inv h Hwf Hpos) as (a & e' & t & Hb & He & Ht & Heq).
  rewrite Heq in H. inv_bind H. injection H as <- <-.
  rewrite (live_buf h a Hb).
  rewrite (live_buf (EventQueue (count h - 1) (cap h) (Some x)) x eq_refl). cbn [count].
  rewrite (sift_down_Permutation when _ _ _ _ _ _ Hx) by lia.
  apply load_Ret in He as [_ He]. apply load_Ret in Ht as [_ Ht].
  replace (Z.to_nat (count h)) with (S (Z.to_nat (count h - 1))) by lia.
  rewrite (take_S_r _ _ t Ht).
  destruct a as [|e0 a]; [done|]. injection He as ->.
  change (Z.to_nat 0) with 0%nat.
  destruct (Z.to_nat (count h - 1)) as [|m]; [by simplify_eq/=|].
  simpl. apply Permutation_skip. by rewrite Permutation_app_comm.
Qed.

Lemma pop_min h e h' :
  wf h → 0 < count h → heap_property h → event_queue_pop h = Ret (e, h') →
  ∀ x, x ∈ live h → when e <= when x.
Proof.
  intros Hwf Hpos Hheap H x Hin.
  destruct (pop_inv h Hwf Hpos) as (a & e' & t & Hb & He & Ht & Heq).
  rewrite Heq in H. inv_bind H. injection H as <- <-.
  rewrite (live_buf h a Hb) in Hin. apply elem_of_take in Hin as (i & Hi & Hlt).
  apply (heap_property_buf h a Hb) in Hheap.
  apply (heap_on_root when a (count h) e' Hheap He (Z.of_nat i)); [lia|].
  apply load_Ret. rewrite Nat2Z.id. split; [lia|done].
Qed.

(** *** Sequences of requests *)

Lemma init_facts fresh k h0 :
  0 <= k < 2 ^ 32 → event_queue_init fresh k = (0, h0) →
  wf h0 ∧ count h0 = 0 ∧ cap h0 = k ∧ heap_property h0 ∧ live h0 = [].
Proof.
  intros Hk. unfold event_queue_init, malloc. destruct fresh as [junk|]; [|done].
  cbn [buf]. intros [= <-]. cbn [count cap buf]. repeat split; try done.
  - eexists. split; [done|]. rewrite length_resize. cbn [count cap]. lia.
  - intros i p c Hi. cbn [count] in Hi. lia.
Qed.

Lemma run_app rs1 rs2 : ∀ h,
  run h (rs1 ++ rs2) =
    '(es1, h1) ← run h rs1; '(es2, h2) ← run h1 rs2; Some (es1 ++ es2, h2).
Proof.
  induction rs1 as [|[fresh v|] rs1 IH]; intros h; cbn [run app].
  - simpl. by destruct (run h rs2) as [[es2 h2]|].
  - destruct (event_queue_push fresh h v) as [[[|?|?] h1]| |]; try done.
  - destruct (0 <? count h); [|done].
    destruct (event_queue_pop h) as [[e h1]| |]; try done.
    rewrite IH. destruct (run h1 rs1) as [[es1 h2]|]; [|done]. simpl.
    by destruct (run h2 rs2) as [[es2 h3]|].
Qed.

Lemma run_multiset rs : ∀ h es h',
  wf h → run h rs = Some (es, h') →
  wf h' ∧ es ++ live h' ≡ₚ live h ++ inserted rs.
Proof.
  induction rs as [|[fresh v|] rs IH]; intros h es h' Hwf H; cbn [run] in H.
  - injection H as <- <-. split; [done|]. unfold inserted. simpl. by rewrite app_nil_r.
  - destruct (event_queue_push fresh h v) as [[[|?|?] h1]| |] eqn:E; try done.
    destruct (IH h1 es h' (push_wf _ _ _ _ Hwf E) H) as [Hwf' Hp]. split; [done|].
    rewrite Hp, (push_live _ _ _ _ Hwf E).
    change (inserted (Insert fresh v :: rs)) with (v :: inserted rs).
    by rewrite <-Permutation_middle.
  - destruct (0 <? count h) eqn:Epos; [|done]. apply Z.ltb_lt in Epos.
    destruct (event_queue_pop h) as [[e h1]| |] eqn:E; try done.
    destruct (run h1 rs) as [[es1 h2]|] eqn:Er; [|done]. injection H as <- <-.
    destruct (IH h1 es1 h2 (pop_wf _ _ _ Hwf Epos E) Er) as [Hwf' Hp]. split; [done|].
    change (inserted (ExtractMin :: rs)) with (inserted rs).
    rewrite (pop_live _ _ _ Hwf Epos E). simpl. by rewrite Hp.
Qed.

Lemma run_inserts l : ∀ h es h1,
  wf h → heap_property h → run h (inserts l) = Some (es, h1) →
  es = [] ∧ wf h1 ∧ heap_property h1 ∧ count h1 = count h + Z.of_nat (length l).
Proof.
  induction l as [|[fresh v] l IH]; intros h es h1 Hwf Hheap H;
    cbn [run inserts fmap list_fmap] in H.
  - injection H as <- <-. repeat split; try done. simpl. lia.
  - cbn [fst snd] in H.
    destruct (event_queue_push fresh h v) as [[[|?|?] h']| |] eqn:E; try done.
    destruct (IH h' es h1 (push_wf _ _ _ _ Hwf E) (push_heap _ _ _ _ Hwf Hheap E) H)
      as (-> & Hwf1 & Hheap1 & Hc).
    repeat split; try done. rewrite Hc, (push_count _ _ _ _ Hwf E). simpl length. lia.
Qed.

Lemma run_extracts (N : nat) : ∀ h,
  wf h → heap_property h → count h = Z.of_nat N → count h - 1 <= 2 ^ 31 →
  ∃ es h2, run h (replicate N ExtractMin) = Some (es, h2) ∧
    es ≡ₚ live h ∧ Sorted Z.le (when <$> es) ∧ length es = N ∧
    wf h2 ∧ count h2 = 0.
Proof.
  induction N as [|N IH]; intros h Hwf Hheap Hc Hsafe; cbn [run replicate].
  - exists [], h. repeat split; try done; try lia.
    unfold live. rewrite Hc. done.
  - assert (0 < count h) as Hpos by lia.
    rewrite (proj2 (Z.ltb_lt _ _) Hpos).
    destruct (pop_defined h Hwf Hpos Hsafe) as (e & h1 & E). rewrite E.
    pose proof (pop_wf _ _ _ Hwf Hpos E) as Hwf1.
    pose proof (pop_heap _ _ _ Hwf Hpos Hsafe Hheap E) as Hheap1.
    pose proof (pop_count _ _ _ Hwf Hpos E) as Hc1.
    destruct (IH h1 Hwf1 Hheap1) as (es & h2 & -> & Hp & Hs & Hl & Hwf2 & Hc2); [lia..|].
    exists (e :: es), h2. simpl. repeat split; try done.
    + by rewrite (pop_live _ _ _ Hwf Hpos E), Hp.
    + apply Sorted_cons; [done|].
      destruct es as [|y es]; [constructor|]. constructor.
      apply (pop_min _ _ _ Hwf Hpos Hheap E).
      rewrite (pop_live _ _ _ Hwf Hpos E), <-Hp. right. by left.
    + by rewrite Hl.
Qed.

(** Insertions into a queue that has room for them. *)
Lemma inserts_fit l : ∀ h,
  wf h → count h + Z.of_nat (length l) <= cap h →
  ∃ h', run h (inserts l) = Some ([], h') ∧ wf h' ∧
        cap h' = cap h ∧ count h' = count h + Z.of_nat (length l).
Proof.
  induction l as [|[fresh v] l IH]; intros h Hwf Hroom.
  { exists h. repeat split; try done. simpl. lia. }
  simpl length in Hroom. cbn [run inserts fmap list_fmap fst snd].
  destruct (push_defined fresh h v Hwf) as (h1 & E & Hcap); [lia|].
  assert ((count h =? cap h) = false) as Hne by (apply Z.eqb_neq; lia).
  rewrite Hne in Hcap. rewrite E.
  pose proof (push_count _ _ _ _ Hwf E) as Hc.
  destruct (IH h1 (push_wf _ _ _ _ Hwf E)) as (h' & Hrun & Hwf' & Hcap' & Hc'); [lia|].
  exists h'. repeat split; try done; simpl length; lia.
Qed.

(** [k + 1] insertions into a queue initialised with capacity [k], where
    [0 < k < 2^31] and [realloc] answers: all return 0 and the
    capacity is doubled. *)
Lemma growth_doubles fresh0 k l junk v h0 :
  0 < k < 2 ^ 31 → event_queue_init fresh0 k = (0, h0) → Z.of_nat (length l) = k →
  ∃ h', run h0 (inserts (l ++ [(Some junk, v)])) = Some ([], h') ∧
        cap h' = 2 * k ∧ count h' = k + 1.
Proof.
  intros Hk Hinit Hlen.
  destruct (init_facts fresh0 k h0 ltac:(lia) Hinit) as (Hwf & Hc0 & Hcap0 & _).
  destruct (inserts_fit l h0 Hwf) as (h1 & Hrun & Hwf1 & Hcap1 & Hc1); [lia|].
  unfold inserts. rewrite fmap_app. fold (inserts l). rewrite run_app, Hrun.
  cbn [mbind option_bind run fmap list_fmap fst snd].
  destruct (push_defined (Some junk) h1 v Hwf1) as (h' & E & Hcap).
  { right. split; [by eexists|lia]. }
  assert ((count h1 =? cap h1) = true) as Heq by (apply Z.eqb_eq; lia).
  rewrite Heq in Hcap. rewrite E. exists h'. simpl.
  repeat split; [lia|]. rewrite (push_count _ _ _ _ Hwf1 E). lia.
Qed.


(** *** Arrays that agree, and their prefixes *)

Lemma load_fmap {A B : Type} (f : A → B) (a : list A) j x :
  load a j = Ret x → load (f <$> a) j = Ret (f x).
Proof.
  rewrite !load_Ret. intros [Hj Hx]. split; [done|].
  by rewrite list_lookup_fmap, Hx.
Qed.

Lemma agree_of_take {A B : Type} (f : A → B) (a : list A) (b : list B) n hole :
  length a = length b →
  take (Z.to_nat n) b = f <$> take (Z.to_nat n) a →
  agree_except f n hole a b.
Proof.
  intros Hlen Ht. split; [done|]. intros j x Hj _ Lx.
  rewrite <-(load_take b (Z.to_nat n)), Ht by lia.
  apply load_fmap. by rewrite load_take by lia.
Qed.

Lemma take_of_agree {A B : Type} (f : A → B) (a : list A) (b : list B) n m :
  agree f n a b → m <= n →
  take (Z.to_nat m) b = f <$> take (Z.to_nat m) a.
Proof.
  intros [Hlen Hag] Hm. apply list_eq. intros i.
  rewrite list_lookup_fmap.
  destruct (decide (i < Z.to_nat m)%nat) as [Hi|Hi].
  - rewrite !lookup_take_lt by done.
    destruct (a !! i) as [x|] eqn:E.
    + assert (load a (Z.of_nat i) = Ret x) as Lx.
      { apply load_Ret. rewrite Nat2Z.id. split; [lia|done]. }
      apply Hag in Lx; [|lia|done]. apply load_Ret in Lx as [_ Lx].
      by rewrite Nat2Z.id in Lx.
    + apply lookup_ge_None in E. simpl. apply lookup_ge_None. lia.
  - by rewrite !lookup_take_ge by lia.
Qed.

Lemma agree_narrow {A B : Type} (f : A → B) (a : list A) (b : list B) n m hole :
  agree f n a b → m <= n → agree_except f m hole a b.
Proof.
  intros [Hlen Hag] Hm. split; [done|]. intros j x Hj _. apply Hag; [lia|done].
Qed.

Lemma agree_hole {A B : Type} (f : A → B) (a : list A) (b : list B) n :
  agree f n a b → agree_except f (n + 1) (Some n) a b.
Proof.
  intros [Hlen Hag]. split; [done|]. intros j x Hj Hne.
  apply Hag; [|done]. assert (j ≠ n) by congruence. lia.
Qed.

Lemma take_resize_app {A : Type} (a0 j1 j2 : list A) (x : A) (n m : nat) :
  (n ≤ length a0)%nat →
  take n (resize m x (a0 ++ j1)) = take n (resize m x (a0 ++ j2)).
Proof.
  intros Hn. rewrite !take_resize.
  rewrite !resize_le by (rewrite length_app; lia).
  by rewrite !take_app_le by lia.
Qed.

Lemma wrap_le z : 0 <= z → wrap z <= z.
Proof. intros. unfold wrap, UINT_MOD, UINT_WIDTH. apply Z.mod_le; lia. Qed.

(** *** Two queues with the same contents *)

Lemma insert_sim h1 h2 a1 a2 v :
  buf h1 = Some a1 → buf h2 = Some a2 →
  count h1 = count h2 → cap h1 = cap h2 → 0 <= count h1 →
  agree id (count h1) a1 a2 →
  outcome_rel (λ r1 r2, r1.1 = r2.1 ∧ same_contents r1.2 r2.2)
    (insert h1 v) (insert h2 v).
Proof.
  intros Hb1 Hb2 Hc Hcap Hpos Hag.
  rewrite (insert_unfold h1 v a1), (insert_unfold h2 v a2) by done.
  rewrite <-Hc, <-Hcap.
  eapply outcome_rel_bind.
  { apply (sift_up_sim when when id (λ _, eq_refl) (count h1 + 1));
      [by apply agree_hole|lia]. }
  intros x y Hag'. cbn [outcome_rel fst snd]. split; [done|].
  unfold same_contents, live. cbn [count cap buf default].
  split; [done|]. split; [done|].
  change (id x) with x. change (id y) with y.
  rewrite (take_of_agree id x y (count h1 + 1) (wrap (count h1 + 1)) Hag')
    by (apply wrap_le; lia).
  by rewrite list_fmap_id.
Qed.

Lemma same_contents_agree h1 h2 a1 a2 :
  wf h1 → wf h2 → same_contents h1 h2 → buf h1 = Some a1 → buf h2 = Some a2 →
  agree id (count h1) a1 a2.
Proof.
  intros (b1 & Hb1 & Hl1 & Hc1 & _) (b2 & Hb2 & Hl2 & Hc2 & _) (Hc & Hcap & Hlive) E1 E2.
  assert (b1 = a1) as -> by congruence. assert (b2 = a2) as -> by congruence.
  apply agree_of_take; [lia|].
  rewrite list_fmap_id.
  rewrite (live_buf h1 a1 E1), (live_buf h2 a2 E2), <-Hc in Hlive. done.
Qed.

Lemma push_deterministic h1 h2 fresh1 fresh2 v :
  wf h1 → wf h2 → same_contents h1 h2 → (is_Some fresh1 ↔ is_Some fresh2) →
  outcome_rel (λ r1 r2, r1.1 = r2.1 ∧ same_contents r1.2 r2.2)
    (event_queue_push fresh1 h1 v) (event_queue_push fresh2 h2 v).
Proof.
  intros Hwf1 Hwf2 Hsame Hfresh.
  pose proof Hwf1 as (a1 & Hb1 & Hl1 & Hc1 & Hcap1).
  pose proof Hwf2 as (a2 & Hb2 & Hl2 & Hc2 & Hcap2).
  pose proof (same_contents_agree _ _ _ _ Hwf1 Hwf2 Hsame Hb1 Hb2) as Hag.
  pose proof Hsame as (Hc & Hcap & Hlive).
  unfold event_queue_push. rewrite <-Hc, <-Hcap.
  destruct (count h1 =? cap h1) eqn:E; [|by apply (insert_sim h1 h2 a1 a2); try lia].
  apply Z.eqb_eq in E.
  destruct fresh1 as [j1|], fresh2 as [j2|];
    try (by destruct Hfresh as [F1 F2];
         first [destruct (F1 (mk_is_Some _ _ eq_refl)) | destruct (F2 (mk_is_Some _ _ eq_refl))]).
  - unfold grow, realloc. rewrite Hb1, Hb2. cbn [buf count cap default].
    rewrite <-Hcap.
    assert (a2 = a1) as ->.
    { rewrite (live_buf h1 a1 Hb1), (live_buf h2 a2 Hb2), <-Hc in Hlive.
      rewrite !take_ge in Hlive by lia. done. }
    eapply insert_sim; cbn [buf count cap]; try done; [lia|].
    change (id a1) with a1.
    apply agree_of_take; [by rewrite !length_resize|].
    rewrite list_fmap_id. apply take_resize_app. lia.
  - unfold grow, realloc. cbn [buf]. simpl. split; [done|].
    unfold same_contents, live. cbn [count cap buf default].
    rewrite Hcap, Hc. by rewrite !take_nil.
Qed.

Lemma pop_deterministic h1 h2 :
  wf h1 → wf h2 → same_contents h1 h2 → 0 < count h1 →
  outcome_rel (λ r1 r2, r1.1 = r2.1 ∧ same_contents r1.2 r2.2)
    (event_queue_pop h1) (event_queue_pop h2).
Proof.
  intros Hwf1 Hwf2 Hsame Hpos. pose proof Hsame as (Hc & Hcap & Hlive).
  destruct (pop_inv h1 Hwf1 Hpos) as (a1 & e1 & t1 & Hb1 & He1 & Ht1 & ->).
  destruct (pop_inv h2 Hwf2) as (a2 & e2 & t2 & Hb2 & He2 & Ht2 & ->); [lia|].
  pose proof (same_contents_agree _ _ _ _ Hwf1 Hwf2 Hsame Hb1 Hb2) as Hag.
  rewrite <-Hc, <-Hcap in *.
  assert (e2 = e1) as ->.
  { destruct Hag as [_ Hag]. apply Hag in He1; [|lia|done]. unfold id in He1. congruence. }
  assert (t2 = t1) as ->.
  { destruct Hag as [_ Hag]. apply Hag in Ht1; [|lia|done]. unfold id in Ht1. congruence. }
  eapply outcome_rel_bind.
  { apply (sift_down_sim when when id (λ _, eq_refl) (count h1 - 1)).
    apply (agree_narrow id a1 a2 (count h1)); [done|lia]. }
  intros x y Hag'. cbn [outcome_rel fst snd]. split; [done|].
  unfold same_contents, live. cbn [count cap buf default].
  split; [done|]. split; [done|].
  change (id x) with x. change (id y) with y.
  rewrite (take_of_agree id x y (count h1 - 1) (count h1 - 1) Hag') by lia.
  by rewrite list_fmap_id.
Qed.

Lemma run_deterministic rs1 rs2 :
  Forall2 same_request rs1 rs2 →
  ∀ h1 h2, wf h1 → wf h2 → same_contents h1 h2 →
  same_result (run h1 rs1) (run h2 rs2).
Proof.
  induction 1 as [|r1 r2 rs1 rs2 Hr _ IH]; intros h1 h2 Hwf1 Hwf2 Hsame; [done|].
  destruct r1 as [fresh1 v1|], r2 as [fresh2 v2|]; try done; cbn [run].
  - destruct Hr as [<- Hfresh].
    pose proof (push_deterministic h1 h2 fresh1 fresh2 v1 Hwf1 Hwf2 Hsame Hfresh) as Hp.
    destruct (event_queue_push fresh1 h1 v1) as [[r1 h1']| |] eqn:E1,
             (event_queue_push fresh2 h2 v1) as [[r2 h2']| |] eqn:E2; try done.
    cbn [outcome_rel fst snd] in Hp. destruct Hp as [<- Hsame'].
    destruct r1 as [|?|?]; try done.
    apply IH; [exact (push_wf _ _ _ _ Hwf1 E1)|exact (push_wf _ _ _ _ Hwf2 E2)|done].
  - pose proof Hsame as (Hc & _). rewrite <-Hc.
    destruct (0 <? count h1) eqn:Epos; [|done]. apply Z.ltb_lt in Epos.
    pose proof (pop_deterministic h1 h2 Hwf1 Hwf2 Hsame Epos) as Hp.
    destruct (event_queue_pop h1) as [[e1 h1']| |] eqn:E1,
             (event_queue_pop h2) as [[e2 h2']| |] eqn:E2; try done.
    cbn [outcome_rel fst snd] in Hp. destruct Hp as [<- Hsame'].
    assert (wf h1') by exact (pop_wf _ _ _ Hwf1 Epos E1).
    assert (wf h2') by (apply (pop_wf h2 e1 h2' Hwf2); [lia|done]).
    specialize (IH h1' h2' ltac:(done) ltac:(done) Hsame').
    destruct (run h1' rs1) as [[es1 h1'']|], (run h2' rs2) as [[es2 h2'']|]; try done.
    simpl. destruct IH as [-> ?]. done.
Qed.

(** *** The integer heap and the event queue side by side *)

Lemma queue_push_unfold q k b :
  IntHeap.data q = Some b →
  IntHeap.queue_push q k =
    a' ← Heap.sift_up id loop_fuel b k (IntHeap.count q);
    Ret (IntHeap.Queue (wrap (IntHeap.count q + 1)) (Some a')).
Proof. intros E. unfold IntHeap.queue_push. simpl. rewrite E. reflexivity. Qed.

Lemma queue_pop_unfold q b k t :
  IntHeap.data q = Some b → load b 0 = Ret k →
  load b (wrap (IntHeap.count q - 1)) = Ret t →
  IntHeap.queue_pop q =
    a' ← Heap.sift_down id loop_fuel b (wrap (IntHeap.count q - 1)) t 0;
    Ret (k, IntHeap.Queue (wrap (IntHeap.count q - 1)) (Some a')).
Proof.
  intros E Hk Ht. unfold IntHeap.queue_pop. rewrite E. simpl. rewrite Hk. simpl.
  rewrite Ht. reflexivity.
Qed.

Lemma same_cells_agree q h a b :
  same_cells q h → wf h → buf h = Some a → IntHeap.data q = Some b →
  agree when (count h) a b.
Proof.
  intros (Hc & b' & a' & Hd & Hb & Hlen & Hlive) _ E1 E2.
  assert (a' = a) as -> by congruence. assert (b' = b) as -> by congruence.
  apply agree_of_take; [done|].
  unfold IntHeap.live in Hlive. rewrite Hd, Hc, (live_buf h a Hb) in Hlive. done.
Qed.

Lemma push_cap fresh h v h' :
  wf h → count h < cap h → event_queue_push fresh h v = Ret (0, h') → cap h' = cap h.
Proof.
  intros Hwf Hroom H.
  destruct (push_inv _ _ _ _ Hwf H) as (a & a' & _ & _ & _ & _ & _ & _ & [?|[? _]]);
    [done|lia].
Qed.

Lemma pop_cap h e h' :
  wf h → 0 < count h → event_queue_pop h = Ret (e, h') → cap h' = cap h.
Proof.
  intros Hwf Hpos H.
  destruct (pop_inv h Hwf Hpos) as (a & e' & t & Hb & He & Ht & Heq).
  rewrite Heq in H. inv_bind H. by injection H as <- <-.
Qed.

Lemma int_push_sim q h fresh v :
  same_cells q h → wf h → count h < cap h →
  outcome_rel (λ r q', r.1 = 0 ∧ same_cells q' r.2)
    (event_queue_push fresh h v) (IntHeap.queue_push q (when v)).
Proof.
  intros Hsame Hwf Hroom.
  pose proof Hwf as (a & Hb & Hl & Hc & Hcap).
  pose proof Hsame as (Hcq & b & a' & Hd & Hb' & Hlen & Hlive).
  assert (a' = a) as -> by congruence.
  pose proof (same_cells_agree q h a b Hsame Hwf Hb Hd) as Hag.
  unfold event_queue_push.
  assert ((count h =? cap h) = false) as -> by (apply Z.eqb_neq; lia).
  rewrite (insert_unfold h v a Hb), (queue_push_unfold q (when v) b Hd), Hcq.
  eapply outcome_rel_bind.
  { apply (sift_up_sim when id when (λ _, eq_refl) (count h + 1));
      [by apply agree_hole|lia]. }
  intros x y Hag'. cbn [outcome_rel fst snd]. split; [done|].
  split; [done|]. exists y, x. repeat split; try done.
  - by destruct Hag'.
  - unfold IntHeap.live, live. cbn [IntHeap.count IntHeap.data count buf default].
    change (id x) with x. change (id y) with y.
    apply (take_of_agree when x y (count h + 1)); [done|apply wrap_le; lia].
Qed.

Lemma int_pop_sim q h :
  same_cells q h → wf h → 0 < count h →
  outcome_rel (λ r1 r2, r2.1 = when r1.1 ∧ same_cells r2.2 r1.2)
    (event_queue_pop h) (IntHeap.queue_pop q).
Proof.
  intros Hsame Hwf Hpos.
  pose proof Hwf as (a0 & Hb0 & Hl & Hc & Hcap).
  pose proof Hsame as (Hcq & b & a' & Hd & Hb' & Hlen & Hlive).
  destruct (pop_inv h Hwf Hpos) as (a & e & t & Hb & He & Ht & ->).
  assert (a' = a) as -> by congruence.
  pose proof (same_cells_agree q h a b Hsame Hwf Hb Hd) as Hag.
  assert (wrap (count h - 1) = count h - 1) as Hw by (apply wrap_small; lia).
  assert (load b 0 = Ret (when e)) as Hk.
  { destruct Hag as [_ Hag]. apply Hag; [lia|done|done]. }
  assert (load b (count h - 1) = Ret (when t)) as Ht'.
  { destruct Hag as [_ Hag]. apply Hag; [lia|done|done]. }
  rewrite (queue_pop_unfold q b (when e) (when t) Hd Hk) by (by rewrite Hcq, Hw).
  rewrite Hcq, Hw.
  eapply outcome_rel_bind.
  { apply (sift_down_sim when id when (λ _, eq_refl) (count h - 1)).
    apply (agree_narrow when a b (count h)); [done|lia]. }
  intros x y Hag'. cbn [outcome_rel fst snd]. split; [done|].
  split; [done|]. exists y, x. repeat split; try done.
  - by destruct Hag'.
  - unfold IntHeap.live, live. cbn [IntHeap.count IntHeap.data count buf default].
    change (id x) with x. change (id y) with y.
    apply (take_of_agree when x y (count h - 1)); [done|lia].
Qed.

(** ** The claims *)

#[local] Transparent loop_fuel.

Lemma sample_heap_wf : wf sample_heap.
Proof. exists [ev 2 20; ev 5 50; ev 8 80; blank]. repeat split; simpl; lia. Qed.

Lemma sample_heap_heap : heap_property sample_heap.
Proof.
  intros i p c Hi. assert (i = 1 ∨ i = 2) as [-> | ->] by (simpl in Hi; lia).
  all: intros [= <-] [= <-]; simpl; lia.
Qed.



(** C6.  On a queue with [count > 0] that satisfies the heap property,
    the event [event_queue_pop] returns is one of the [count] events
    held before the call and its [when] is at most the [when] of each
    of them; and the call does return (for a count of at most
    [2^31 + 1]). *)
Theorem pop_returns_minimum h :
  wf h → 0 < count h → heap_property h →
  (∀ e h', event_queue_pop h = Ret (e, h') →
     e ∈ live h ∧ ∀ x, x ∈ live h → when e <= when x) ∧
  (count h - 1 <= 2 ^ 31 → ∃ e h', event_queue_pop h = Ret (e, h')).
Proof.
  intros Hwf Hpos Hheap. split.
  - intros e h' H. split; [|by eapply pop_min].
    rewrite (pop_live h e h' Hwf Hpos H). by left.
  - by apply pop_defined.
Qed.

Lemma pop_returns_minimum_witness :
  wf sample_heap ∧ 0 < count sample_heap ∧ heap_property sample_heap ∧
  event_queue_pop sample_heap =
    Ret (ev 2 20, EventQueue 2 4 (Some [ev 5 50; ev 8 80; ev 8 80; blank])) ∧
  ∀ x, x ∈ live sample_heap → when (ev 2 20) <= when x.
Proof.
  split; [exact sample_heap_wf|]. split; [simpl; lia|]. split; [exact sample_heap_heap|].
  split; [reflexivity|].
  apply (proj1 (pop_returns_minimum sample_heap sample_heap_wf ltac:(simpl; lia)
                  sample_heap_heap) (ev 2 20) _ eq_refl).
Defined.

(** C1.  What [event_queue_push] does when the queue is full and
    [realloc] returns NULL: it returns 1, but the queue it leaves has
    the doubled capacity and a NULL buffer; the old buffer is no longer
    referenced and its events are lost to the caller. *)
Theorem push_allocation_failure h v :
  count h = cap h →
  event_queue_push None h v = Ret (1, EventQueue (count h) (wrap (cap h * 2)) None).
Proof.
  intros E. unfold event_queue_push. by rewrite (proj2 (Z.eqb_eq _ _) E).
Qed.

Lemma push_allocation_failure_witness :
  count full_queue = cap full_queue ∧
  event_queue_push None full_queue (ev 3 30) = Ret (1, EventQueue 1 2 None).
Proof.
  split; [reflexivity|]. exact (push_allocation_failure full_queue (ev 3 30) eq_refl).
Defined.

(** C8.  Doubling does not always give a larger capacity.  On a queue
    initialised with capacity 0 the capacity stays 0, and no
    [event_queue_push] returns 0: it returns 1 when [realloc] returns
    NULL and writes outside the buffer otherwise.  At capacity [2^31]
    the doubled capacity wraps to 0. *)
Theorem grow_from_zero_fails fresh v :
  cap (grow fresh zero_queue) = 0 ∧
  event_queue_push fresh zero_queue v =
    match fresh with
    | None => Ret (1, EventQueue 0 0 None)
    | Some _ => Undefined
    end ∧
  (∀ c b, cap (grow fresh (EventQueue c (2 ^ 31) b)) = 0).
Proof.
  split; [reflexivity|]. split; [|reflexivity].
  destruct fresh as [junk|]; [|reflexivity].
  unfold event_queue_push, zero_queue, grow, realloc.
  cbn [count cap buf fst snd event_queue_init malloc].
  change (0 =? 0) with true. cbn match. change (wrap (0 * 2)) with 0.
  change (Z.to_nat 0) with 0%nat. rewrite resize_0.
  reflexivity.
Qed.

(** C7.  The choice of the child in the sift-down loops of
    [event_queue_pop] and [queue_pop].  When both children of [index]
    are among the [count] elements, the right child is chosen whenever
    its key is less than or equal to the key of the left child, hence
    also when the two are equal; the left child is chosen only when
    its key is strictly smaller. *)
Theorem right_child_chosen_on_ties :
  (∀ (a : list event) n i l r,
     0 <= i → 2 * i + 2 < n → n < 2 ^ 32 →
     load a (2 * i + 1) = Ret l → load a (2 * i + 2) = Ret r →
     choose_child a n i =
       Ret (Some (if when r <=? when l then 2 * i + 2 else 2 * i + 1))) ∧
  (∀ (a : list Z) n i l r,
     0 <= i → 2 * i + 2 < n → n < 2 ^ 32 →
     load a (2 * i + 1) = Ret l → load a (2 * i + 2) = Ret r →
     IntHeap.choose_child a n i =
       Ret (Some (if r <=? l then 2 * i + 2 else 2 * i + 1))).
Proof.
  split; intros a n i l r Hi Hn Hn32 Ll Lr.
  - unfold choose_child. rewrite left_child_spec by lia.
    rewrite (wrap_small (2 * i + 1 + 1)) by lia.
    replace (2 * i + 1 + 1) with (2 * i + 2) by lia.
    assert ((n <=? 2 * i + 1) = false) as -> by (apply Z.leb_gt; lia).
    assert ((2 * i + 2 <? n) = true) as -> by (apply Z.ltb_lt; lia).
    rewrite Ll, Lr. simpl. unfold EVENT_CMP. by destruct (when r <=? when l).
  - unfold IntHeap.choose_child. rewrite left_child_spec by lia.
    rewrite (wrap_small (2 * i + 1 + 1)) by lia.
    replace (2 * i + 1 + 1) with (2 * i + 2) by lia.
    assert ((n <=? 2 * i + 1) = false) as -> by (apply Z.leb_gt; lia).
    assert ((2 * i + 2 <? n) = true) as -> by (apply Z.ltb_lt; lia).
    rewrite Ll, Lr. simpl. unfold IntHeap.CMP. by destruct (r <=? l).
Qed.

Lemma right_child_chosen_on_ties_witness :
  choose_child [ev 1 10; ev 5 51; ev 5 52; ev 9 90] 3 0 = Ret (Some 2) ∧
  IntHeap.choose_child [1; 5; 5; 9] 3 0 = Ret (Some 2).
Proof.
  split.
  - exact (proj1 right_child_chosen_on_ties
             [ev 1 10; ev 5 51; ev 5 52; ev 9 90] 3 0 (ev 5 51) (ev 5 52)
             ltac:(lia) ltac:(lia) ltac:(lia) eq_refl eq_refl).
  - exact (proj2 right_child_chosen_on_ties
             [1; 5; 5; 9] 3 0 5 5 ltac:(lia) ltac:(lia) ltac:(lia) eq_refl eq_refl).
Defined.

(** The two children of the root of [tie_heap] are among its elements and
    have the same timestamp, and [event_queue_pop] chooses the right one
    (cell 2) and moves it to the root. *)
Lemma left_child_not_preferred :
  cell tie_heap 1 = Ret (ev 5 51) ∧ cell tie_heap 2 = Ret (ev 5 52) ∧
  choose_child [ev 1 10; ev 5 51; ev 5 52; ev 9 90] 3 0 = Ret (Some 2) ∧
  event_queue_pop tie_heap =
    Ret (ev 1 10, EventQueue 3 4 (Some [ev 5 52; ev 5 51; ev 9 90; ev 9 90])).
Proof. repeat split. Qed.



(** C5.  Whatever insertions and extractions are made on an initialised
    queue, the insertions returning 0 and each extraction made with
    [count > 0]: the [(when, data)] pairs of the extracted events
    together with those of the events still in the first [count] cells
    are, as a multiset, the pairs of the inserted events. *)
Theorem multiset_preserved fresh0 k rs h0 es h' :
  0 <= k < 2 ^ 32 → event_queue_init fresh0 k = (0, h0) →
  run h0 rs = Some (es, h') →
  pair_of <$> (es ++ live h') ≡ₚ pair_of <$> inserted rs.
Proof.
  intros Hk Hinit Hrun.
  destruct (init_facts _ _ _ Hk Hinit) as (Hwf & _ & _ & _ & Hlive).
  destruct (run_multiset rs h0 es h' Hwf Hrun) as [_ Hp].
  rewrite Hp, Hlive. done.
Qed.

Lemma multiset_preserved_witness :
  0 <= 2 < 2 ^ 32 ∧ event_queue_init (Some []) 2 = (0, empty_queue) ∧
  run empty_queue interleaved =
    Some ([ev 2 20; ev 2 21],
          EventQueue 2 4 (Some [ev 5 50; ev 8 80; ev 5 50; blank])) ∧
  [(2, 20); (2, 21); (5, 50); (8, 80)] ≡ₚ [(5, 50); (2, 20); (8, 80); (2, 21)].
Proof.
  assert (0 <= 2 < 2 ^ 32) as H1 by lia.
  assert (run empty_queue interleaved =
            Some ([ev 2 20; ev 2 21],
                  EventQueue 2 4 (Some [ev 5 50; ev 8 80; ev 5 50; blank]))) as H2
    by (vm_compute; reflexivity).
  repeat split; try done.
  exact (multiset_preserved (Some []) 2 interleaved empty_queue _ _ H1 eq_refl H2).
Defined.




(** C10.  The result of [event_queue_push] and of [event_queue_pop]
    depends on the count, the capacity and the stored events only.
    From two queues that agree on these (whatever else the buffers
    hold beyond the stored events), with the same event to insert and
    an allocator that succeeds in both runs or fails in both (whatever
    the cells it hands out hold), the two calls are of the same kind,
    return the same value and leave queues that agree again; so do two
    runs of the same requests, which therefore extract the same events
    in the same order. *)
Theorem push_pop_deterministic h1 h2 :
  wf h1 → wf h2 → same_contents h1 h2 →
  (∀ fresh1 fresh2 v, (is_Some fresh1 ↔ is_Some fresh2) →
     outcome_rel (λ r1 r2, r1.1 = r2.1 ∧ same_contents r1.2 r2.2)
       (event_queue_push fresh1 h1 v) (event_queue_push fresh2 h2 v)) ∧
  (0 < count h1 →
     outcome_rel (λ r1 r2, r1.1 = r2.1 ∧ same_contents r1.2 r2.2)
       (event_queue_pop h1) (event_queue_pop h2)) ∧
  (∀ rs1 rs2, Forall2 same_request rs1 rs2 →
     same_result (run h1 rs1) (run h2 rs2)).
Proof.
  intros Hwf1 Hwf2 Hsame. split; [|split].
  - intros fresh1 fresh2 v Hfresh. by apply push_deterministic.
  - by apply pop_deterministic.
  - intros rs1 rs2 Hrs. by apply run_deterministic.
Qed.

Lemma push_pop_deterministic_witness :
  wf sample_heap ∧ wf sample_heap' ∧ same_contents sample_heap sample_heap' ∧
  outcome_rel (λ r1 r2, r1.1 = r2.1 ∧ same_contents r1.2 r2.2)
    (event_queue_push (Some [ev 7 70]) sample_heap (ev 1 10))
    (event_queue_push (Some []) sample_heap' (ev 1 10)) ∧
  outcome_rel (λ r1 r2, r1.1 = r2.1 ∧ same_contents r1.2 r2.2)
    (event_queue_pop sample_heap) (event_queue_pop sample_heap').
Proof.
  assert (wf sample_heap') as Hwf'.
  { eexists. split; [reflexivity|]. repeat split; simpl; lia. }
  assert (same_contents sample_heap sample_heap') as Hsame by (by repeat split).
  pose proof (push_pop_deterministic sample_heap sample_heap' sample_heap_wf Hwf' Hsame)
    as (Hpush & Hpop & _).
  split; [exact sample_heap_wf|]. split; [exact Hwf'|]. split; [exact Hsame|].
  split.
  - apply Hpush. split; intros _; by eexists.
  - apply Hpop. simpl. lia.
Defined.

(** ** Further properties of the two files *)

#[local] Opaque loop_fuel.

(** *** Insertion and extraction on the first cells of an array *)

Section HeapOperations.
Context {A : Type} (key : A → Z).
Implicit Types (a : list A) (n : Z) (v : A).

Lemma sift_up_insert_heap fuel a n v a' :
  Heap.sift_up key fuel a v n = Ret a' → 0 <= n →
  Heap.heap_on key a n → Heap.heap_on key a' (n + 1).
Proof.
  intros Hup Hn Hheap. apply (sift_up_heap key _ _ _ _ _ _ Hup); [lia|].
  repeat split.
  - intros j p c Hj Hne. apply Hheap. lia.
  - intros j c Hj Hp. zlia.
  - intros j p c Hj Hp. zlia.
Qed.

Lemma sift_up_insert_Permutation fuel a n v a' :
  Heap.sift_up key fuel a v n = Ret a' → 0 <= n →
  take (Z.to_nat (n + 1)) a' ≡ₚ v :: take (Z.to_nat n) a.
Proof.
  intros Hup Hn. pose proof (sift_up_bounds _ _ _ _ _ _ Hup) as Hin.
  rewrite (sift_up_Permutation key _ _ _ _ _ _ Hup) by lia.
  replace (Z.to_nat (n + 1)) with (S (Z.to_nat n)) by lia.
  rewrite (take_S_r _ _ v) by (apply list_lookup_insert_eq; lia).
  rewrite take_insert_ge by lia. by rewrite Permutation_app_comm.
Qed.

Lemma sift_down_extract_heap fuel a n t a' :
  Heap.sift_down key fuel a (n - 1) t 0 = Ret a' → 0 < n → n - 1 <= 2 ^ 31 →
  Heap.heap_on key a n → Heap.heap_on key a' (n - 1).
Proof.
  intros Hdown Hn Hsafe Hheap.
  apply (sift_down_heap key _ _ _ _ _ _ Hdown); [lia|lia|lia| |lia].
  intros i p c Hi. apply Hheap. lia.
Qed.

Lemma sift_down_extract_Permutation fuel a n e t a' :
  load a 0 = Ret e → load a (n - 1) = Ret t →
  Heap.sift_down key fuel a (n - 1) t 0 = Ret a' → 0 < n →
  take (Z.to_nat n) a ≡ₚ e :: take (Z.to_nat (n - 1)) a'.
Proof.
  intros He Ht Hdown Hn.
  rewrite (sift_down_Permutation key _ _ _ _ _ _ Hdown) by lia.
  apply load_Ret in He as [_ He]. apply load_Ret in Ht as [_ Ht].
  replace (Z.to_nat n) with (S (Z.to_nat (n - 1))) by lia.
  rewrite (take_S_r _ _ t Ht).
  destruct a as [|e0 a]; [done|]. injection He as ->.
  change (Z.to_nat 0) with 0%nat.
  destruct (Z.to_nat (n - 1)) as [|m]; [by simplify_eq/=|].
  simpl. apply Permutation_skip. by rewrite Permutation_app_comm.
Qed.

(** The sift-up loop halves [index] at every round: it comes to an end
    on every array, for every 32-bit index. *)
Lemma sift_up_no_fuel fuel : ∀ a v i,
  0 <= i → i + 1 < 2 ^ Z.of_nat fuel →
  Heap.sift_up key fuel a v i ≠ OutOfFuel.
Proof.
  induction fuel as [|fuel IH]; intros a v i Hi Hfuel.
  { simpl in Hfuel. lia. }
  rewrite Nat2Z.inj_succ, Z.pow_succ_r in Hfuel by lia.
  simpl. destruct (i =? 0) eqn:E0.
  { unfold store. by destruct (_ && _). }
  apply Z.eqb_neq in E0. rewrite parent_spec by lia.
  destruct (load a ((i - 1) / 2)) as [p| |] eqn:Lp;
    [|discriminate|by apply load_no_fuel in Lp].
  cbn [mbind outcome_bind]. destruct (Heap.cmp key p v).
  { unfold store. by destruct (_ && _). }
  destruct (store a i p) as [a1| |] eqn:Est; [|discriminate|].
  - cbn [mbind outcome_bind]. apply IH; zlia.
  - unfold store in Est. by destruct (_ && _).
Qed.

End HeapOperations.

(** *** The operations of the integer heap *)

Lemma int_heap_property_data q b :
  IntHeap.data q = Some b →
  IntHeap.heap_property q ↔ Heap.heap_on id b (IntHeap.count q).
Proof.
  intros E. unfold IntHeap.heap_property, Heap.heap_on, IntHeap.cell. rewrite E. done.
Qed.

Lemma int_live_data q b :
  IntHeap.data q = Some b → IntHeap.live q = take (Z.to_nat (IntHeap.count q)) b.
Proof. intros E. unfold IntHeap.live. by rewrite E. Qed.

Lemma int_capacity_data q b :
  IntHeap.data q = Some b → IntHeap.capacity q = Z.of_nat (length b).
Proof. intros E. unfold IntHeap.capacity. by rewrite E. Qed.

Lemma int_push_inv q k :
  IntHeap.wf q → IntHeap.count q < IntHeap.capacity q →
  ∃ b b', IntHeap.data q = Some b ∧ length b' = length b ∧
    Heap.sift_up id loop_fuel b k (IntHeap.count q) = Ret b' ∧
    IntHeap.queue_push q k = Ret (IntHeap.Queue (IntHeap.count q + 1) (Some b')).
Proof.
  intros ([b Hb] & Hc & Hcap) Hroom. rewrite (int_capacity_data q b Hb) in *.
  destruct (sift_up_defined id loop_fuel b k (IntHeap.count q)) as [b' Hup]; [lia| |].
  { apply loop_fuel_enough. lia. }
  exists b, b'. split; [done|]. split; [by eapply sift_up_length|]. split; [done|].
  rewrite (queue_push_unfold q k b Hb), Hup. cbn [mbind outcome_bind].
  by rewrite wrap_small by lia.
Qed.

Lemma int_push_state q k q' :
  IntHeap.wf q → IntHeap.count q < IntHeap.capacity q →
  IntHeap.queue_push q k = Ret q' →
  IntHeap.wf q' ∧ IntHeap.count q' = IntHeap.count q + 1 ∧
  IntHeap.capacity q' = IntHeap.capacity q ∧
  IntHeap.live q' ≡ₚ k :: IntHeap.live q ∧
  (IntHeap.heap_property q → IntHeap.heap_property q').
Proof.
  intros Hwf Hroom H. pose proof Hwf as (_ & Hc & Hcap).
  destruct (int_push_inv q k Hwf Hroom) as (b & b' & Hb & Hlen & Hup & Heq).
  rewrite Heq in H. injection H as Hq.
  assert (IntHeap.data q' = Some b') as Hb' by (by rewrite <-Hq).
  assert (IntHeap.count q' = IntHeap.count q + 1) as Hc' by (by rewrite <-Hq).
  rewrite (int_capacity_data q b Hb) in *.
  rewrite (int_capacity_data q' b' Hb'), Hlen, Hc'.
  split; [|split; [done|split; [done|split]]].
  - split; [by eexists|]. rewrite (int_capacity_data q' b' Hb'), Hlen, Hc'. lia.
  - rewrite (int_live_data q b Hb), (int_live_data q' b' Hb'), Hc'.
    apply (sift_up_insert_Permutation id loop_fuel b _ k b' Hup). lia.
  - intros Hheap. apply (int_heap_property_data q' b' Hb'). rewrite Hc'.
    apply (sift_up_insert_heap id loop_fuel b _ k); [done|lia|].
    by apply int_heap_property_data.
Qed.

Lemma int_pop_inv q :
  IntHeap.wf q → 0 < IntHeap.count q →
  ∃ b k t, IntHeap.data q = Some b ∧ load b 0 = Ret k ∧
    load b (IntHeap.count q - 1) = Ret t ∧
    IntHeap.queue_pop q =
      b' ← Heap.sift_down id loop_fuel b (IntHeap.count q - 1) t 0;
      Ret (k, IntHeap.Queue (IntHeap.count q - 1) (Some b')).
Proof.
  intros ([b Hb] & Hc & Hcap) Hpos. rewrite (int_capacity_data q b Hb) in *.
  destruct (load_defined b 0) as [k Hk]; [lia|].
  destruct (load_defined b (IntHeap.count q - 1)) as [t Ht]; [lia|].
  exists b, k, t. repeat split; try done.
  assert (wrap (IntHeap.count q - 1) = IntHeap.count q - 1) as Hw
    by (apply wrap_small; lia).
  pose proof (queue_pop_unfold q b k t Hb Hk) as H. rewrite Hw in H. by apply H.
Qed.

Lemma int_pop_state q k q' :
  IntHeap.wf q → 0 < IntHeap.count q → IntHeap.queue_pop q = Ret (k, q') →
  IntHeap.wf q' ∧ IntHeap.count q' = IntHeap.count q - 1 ∧
  IntHeap.capacity q' = IntHeap.capacity q ∧
  IntHeap.live q ≡ₚ k :: IntHeap.live q' ∧
  (IntHeap.heap_property q → ∀ x, x ∈ IntHeap.live q → k <= x) ∧
  (IntHeap.heap_property q → IntHeap.count q - 1 <= 2 ^ 31 →
     IntHeap.heap_property q').
Proof.
  intros Hwf Hpos H. pose proof Hwf as (_ & Hc & Hcap).
  destruct (int_pop_inv q Hwf Hpos) as (b & k0 & t & Hb & Hk & Ht & Heq).
  rewrite Heq in H. inv_bind H. rename x into b'. injection H as <- Hq.
  assert (IntHeap.data q' = Some b') as Hb' by (by rewrite <-Hq).
  assert (IntHeap.count q' = IntHeap.count q - 1) as Hc' by (by rewrite <-Hq).
  pose proof (sift_down_length _ _ _ _ _ _ _ Hx) as Hlen.
  rewrite (int_capacity_data q b Hb) in *.
  rewrite (int_capacity_data q' b' Hb'), Hlen, Hc'.
  split; [|split; [done|split; [done|split; [|split]]]].
  - split; [by eexists|]. rewrite (int_capacity_data q' b' Hb'), Hlen, Hc'. lia.
  - rewrite (int_live_data q b Hb), (int_live_data q' b' Hb'), Hc'.
    by apply (sift_down_extract_Permutation id loop_fuel b _ k0 t b' Hk Ht Hx).
  - intros Hheap x Hin. rewrite (int_live_data q b Hb) in Hin.
    apply elem_of_take in Hin as (i & Hi & Hlt).
    apply (int_heap_property_data q b Hb) in Hheap.
    apply (heap_on_root id b _ k0 Hheap Hk (Z.of_nat i)); [lia|].
    apply load_Ret. rewrite Nat2Z.id. split; [lia|done].
  - intros Hheap Hsafe. apply (int_heap_property_data q' b' Hb'). rewrite Hc'.
    apply (sift_down_extract_heap id loop_fuel b _ t); [done|lia|done|].
    by apply int_heap_property_data.
Qed.

Lemma int_pop_defined q :
  IntHeap.wf q → 0 < IntHeap.count q → IntHeap.count q - 1 <= 2 ^ 31 →
  ∃ k q', IntHeap.queue_pop q = Ret (k, q').
Proof.
  intros Hwf Hpos Hsafe. pose proof Hwf as (_ & Hc & Hcap).
  destruct (int_pop_inv q Hwf Hpos) as (b & k & t & Hb & Hk & Ht & ->).
  rewrite (int_capacity_data q b Hb) in *.
  destruct (sift_down_defined id loop_fuel b (IntHeap.count q - 1) t 0) as [b' ->];
    [lia..| |by eauto].
  rewrite Z.mul_1_l. apply loop_fuel_enough. lia.
Qed.

Lemma int_run_app rs1 rs2 : ∀ q,
  IntHeap.run q (rs1 ++ rs2) =
    '(ks1, q1) ← IntHeap.run q rs1; '(ks2, q2) ← IntHeap.run q1 rs2;
    Some (ks1 ++ ks2, q2).
Proof.
  induction rs1 as [|[k|] rs1 IH]; intros q; cbn [IntHeap.run app].
  - simpl. by destruct (IntHeap.run q rs2) as [[ks2 q2]|].
  - destruct (IntHeap.queue_push q k) as [q1| |]; try done.
  - destruct (0 <? IntHeap.count q); [|done].
    destruct (IntHeap.queue_pop q) as [[k q1]| |]; try done.
    rewrite IH. destruct (IntHeap.run q1 rs1) as [[ks1 q2]|]; [|done]. simpl.
    by destruct (IntHeap.run q2 rs2) as [[ks2 q3]|].
Qed.

Lemma int_run_inserts ks : ∀ q,
  IntHeap.wf q → IntHeap.heap_property q →
  IntHeap.count q + Z.of_nat (length ks) <= IntHeap.capacity q →
  ∃ q', IntHeap.run q (IntHeap.inserts ks) = Some ([], q') ∧
    IntHeap.wf q' ∧ IntHeap.heap_property q' ∧
    IntHeap.count q' = IntHeap.count q + Z.of_nat (length ks) ∧
    IntHeap.live q' ≡ₚ ks ++ IntHeap.live q.
Proof.
  induction ks as [|k ks IH]; intros q Hwf Hheap Hroom.
  { exists q. split; [done|]. split; [done|]. split; [done|]. split; [simpl; lia|done]. }
  simpl length in Hroom. cbn [IntHeap.run IntHeap.inserts fmap list_fmap].
  assert (IntHeap.count q < IntHeap.capacity q) as Hlt by lia.
  destruct (int_push_inv q k Hwf Hlt) as (b & b' & _ & _ & _ & Heq).
  destruct (int_push_state q k _ Hwf Hlt Heq) as (Hwf1 & Hc1 & Hcap1 & Hlive1 & Hheap1).
  rewrite Heq.
  destruct (IH _ Hwf1 (Hheap1 Hheap)) as (q' & Hrun & Hwf' & Hheap' & Hc' & Hlive');
    [lia|].
  exists q'. split; [done|]. split; [done|]. split; [done|]. split.
  - rewrite Hc', Hc1. simpl length. lia.
  - rewrite Hlive', Hlive1. simpl. by rewrite <-Permutation_middle.
Qed.

Lemma int_run_extracts (N : nat) : ∀ q,
  IntHeap.wf q → IntHeap.heap_property q →
  IntHeap.count q = Z.of_nat N → IntHeap.count q - 1 <= 2 ^ 31 →
  ∃ ks q', IntHeap.run q (replicate N IntHeap.ExtractMin) = Some (ks, q') ∧
    ks ≡ₚ IntHeap.live q ∧ Sorted Z.le ks ∧ IntHeap.count q' = 0.
Proof.
  induction N as [|N IH]; intros q Hwf Hheap Hc Hsafe; cbn [IntHeap.run replicate].
  - exists [], q. repeat split; try done.
    unfold IntHeap.live. rewrite Hc. done.
  - assert (0 < IntHeap.count q) as Hpos by lia.
    rewrite (proj2 (Z.ltb_lt _ _) Hpos).
    destruct (int_pop_defined q Hwf Hpos Hsafe) as (k & q1 & E). rewrite E.
    destruct (int_pop_state q k q1 Hwf Hpos E)
      as (Hwf1 & Hc1 & _ & Hlive & Hmin & Hheap1).
    destruct (IH q1 Hwf1 (Hheap1 Hheap Hsafe)) as (ks & q2 & -> & Hp & Hs & Hc2);
      [lia..|].
    exists (k :: ks), q2. simpl. repeat split; try done.
    + by rewrite Hlive, Hp.
    + apply Sorted_cons; [done|].
      destruct ks as [|y ks]; [constructor|]. constructor.
      apply (Hmin Hheap). rewrite Hlive, <-Hp. right. by left.
Qed.

(** The sift-up loop reaches its first store with [index] unchanged: an
    index outside the array is written to. *)
Lemma sift_up_outside {A : Type} (key : A → Z) fuel (a : list A) v i :
  Z.of_nat (length a) <= i →
  Heap.sift_up key (S fuel) a v i = Undefined.
Proof.
  intros Hi. cbn [Heap.sift_up]. destruct (i =? 0) eqn:E0.
  { apply store_outside. lia. }
  destruct (load a _) as [p| |] eqn:Lp; [|done|by apply load_no_fuel in Lp].
  cbn [mbind outcome_bind]. destruct (Heap.cmp key p v).
  - apply store_outside. lia.
  - rewrite store_outside by lia. done.
Qed.

(** *** Keys that are timestamps *)

Lemma to_uint64_timestamp_key k : timestamp_key k → to_uint64 k = k.
Proof. intros [Hlo Hhi]. unfold to_uint64. apply Z.mod_small. lia. Qed.

Lemma to_uint64_fmap ks : Forall timestamp_key ks → to_uint64 <$> ks = ks.
Proof.
  induction 1 as [|k ks Hk _ IH]; [done|].
  cbn [fmap list_fmap]. fold (fmap to_uint64 ks).
  by rewrite IH, (to_uint64_timestamp_key k Hk).
Qed.

Lemma same_keys_cells q h :
  Forall timestamp_key (IntHeap.live q) → same_keys q h ↔ same_cells q h.
Proof.
  intros Hr. unfold same_keys, same_cells. rewrite (to_uint64_fmap _ Hr).
  split; intros (Hc & b & a & Hd & Hb & Hl & Hk); (split; [done|]);
    exists b, a; repeat split; done.
Qed.

Lemma same_cells_int_wf q h :
  same_cells q h → wf h → IntHeap.wf q ∧ IntHeap.capacity q = cap h.
Proof.
  intros (Hc & b & a & Hd & Hb & Hl & _) (a0 & Hb0 & Hlen & Hcnt & Hcap).
  assert (a0 = a) as -> by congruence.
  assert (IntHeap.capacity q = cap h) as Hq by (rewrite (int_capacity_data q b Hd); lia).
  split; [|done]. split; [by eexists|]. rewrite Hq, Hc. lia.
Qed.

(** The two callers side by side, on the numbers as they are, for keys
    that satisfy [timestamp_key]. *)
Lemma run_same_cells krs rs :
  Forall2 carries krs rs →
  ∀ q h,
    Forall timestamp_key (inserted_keys krs) →
    Forall timestamp_key (IntHeap.live q) →
    same_cells q h → wf h → never_grows (count h) (cap h) rs = true →
    match IntHeap.run q krs, run h rs with
    | Some (ks, q'), Some (es, h') =>
        ks = when <$> es ∧ same_cells q' h' ∧
        Forall timestamp_key ks ∧ Forall timestamp_key (IntHeap.live q')
    | None, None => True
    | _, _ => False
    end.
Proof.
  induction 1 as [|kr r krs rs Hcar _ IH]; intros q h Hins Hlive Hsame Hwf Hfit.
  { done. }
  destruct (same_cells_int_wf q h Hsame Hwf) as [Hwfq Hcapq].
  pose proof Hsame as (Hcq & _).
  destruct kr as [k|], r as [fresh v|]; try done.
  - cbn [carries] in Hcar. change (inserted_keys (IntHeap.Insert k :: krs))
      with (k :: inserted_keys krs) in Hins.
    apply Forall_cons in Hins as [Hk Hins].
    rewrite (to_uint64_timestamp_key k Hk) in Hcar. subst k.
    cbn [never_grows] in Hfit. apply andb_true_iff in Hfit as [Hroom Hfit].
    apply Z.ltb_lt in Hroom. cbn [run IntHeap.run].
    pose proof (int_push_sim q h fresh v Hsame Hwf Hroom) as Hp.
    destruct (event_queue_push fresh h v) as [[r h1]| |] eqn:E1,
             (IntHeap.queue_push q (when v)) as [q1| |] eqn:E2; try done.
    cbn [outcome_rel fst snd] in Hp. destruct Hp as [-> Hsame1].
    destruct (int_push_state q (when v) q1 Hwfq ltac:(lia) E2) as (_ & _ & _ & Hl1 & _).
    apply IH; [done| |done|by eapply push_wf|].
    + rewrite Hl1. by apply Forall_cons.
    + by rewrite (push_count _ _ _ _ Hwf E1), (push_cap _ _ _ _ Hwf Hroom E1).
  - change (inserted_keys (IntHeap.ExtractMin :: krs)) with (inserted_keys krs) in Hins.
    cbn [never_grows] in Hfit. cbn [run IntHeap.run]. rewrite Hcq.
    destruct (0 <? count h) eqn:Epos; [|done]. apply Z.ltb_lt in Epos.
    pose proof (int_pop_sim q h Hsame Hwf Epos) as Hp.
    destruct (event_queue_pop h) as [[e h1]| |] eqn:E1,
             (IntHeap.queue_pop q) as [[k q1]| |] eqn:E2; try done.
    cbn [outcome_rel fst snd] in Hp. destruct Hp as [-> Hsame1].
    destruct (int_pop_state q (when e) q1 Hwfq ltac:(lia) E2) as (_ & _ & _ & Hl1 & _).
    rewrite Hl1 in Hlive. apply Forall_cons in Hlive as [Hk Hlive1].
    specialize (IH q1 h1 Hins Hlive1 Hsame1 (pop_wf _ _ _ Hwf Epos E1)).
    rewrite (pop_count _ _ _ Hwf Epos E1), (pop_cap _ _ _ Hwf Epos E1) in IH.
    specialize (IH Hfit).
    destruct (IntHeap.run q1 krs) as [[ks q2]|], (run h1 rs) as [[es h2]|]; try done.
    destruct IH as (-> & Hsame2 & Hks & Hlive2).
    cbn [mbind option_bind]. split; [done|]. split; [done|].
    split; [by apply Forall_cons|done].
Qed.

(** *** More on the event queue *)

Lemma push_cap_law fresh h v h' :
  wf h → event_queue_push fresh h v = Ret (0, h') →
  cap h' = cap h ∨ (count h = cap h ∧ cap h' = 2 * cap h).
Proof.
  intros Hwf H. pose proof Hwf as (a0 & _ & _ & Hc & Hcap).
  destruct (push_inv _ _ _ _ Hwf H) as (a & a' & _ & _ & Hlt & _ & _ & _ & [?|[E Hw]]);
    [by left|right].
  split; [done|]. rewrite Hw in *. unfold wrap, UINT_MOD, UINT_WIDTH in *. zlia.
Qed.

Lemma insert_no_fuel h v : 0 <= count h < 2 ^ 32 → insert h v ≠ OutOfFuel.
Proof.
  intros Hc. destruct (buf h) as [a|] eqn:Hb.
  - rewrite (insert_unfold h v a Hb).
    destruct (Heap.sift_up when loop_fuel a v (count h)) as [a'| |] eqn:E; try done.
    apply sift_up_no_fuel in E; [done|lia|]. apply loop_fuel_enough. lia.
  - unfold insert. cbn [buf]. by rewrite Hb.
Qed.

Lemma inserted_inserts l : inserted (inserts l) = l.*2.
Proof. induction l as [|[f v] l IH]; [done|]. simpl. by f_equal. Qed.

Lemma run_extracts_cap (N : nat) : ∀ h es h',
  wf h → run h (replicate N ExtractMin) = Some (es, h') → cap h' = cap h.
Proof.
  induction N as [|N IH]; intros h es h' Hwf H; cbn [run replicate] in H.
  { by injection H as <- <-. }
  destruct (0 <? count h) eqn:Epos; [|done]. apply Z.ltb_lt in Epos.
  destruct (event_queue_pop h) as [[e h1]| |] eqn:E; try done.
  destruct (run h1 (replicate N ExtractMin)) as [[es1 h2]|] eqn:Er; [|done].
  injection H as <- <-.
  rewrite (IH h1 es1 h2 (pop_wf _ _ _ Hwf Epos E) Er). by eapply pop_cap.
Qed.

Lemma live_length h : wf h → Z.of_nat (length (live h)) = count h.
Proof.
  intros (a & Hb & Hlen & Hc & _). rewrite (live_buf h a Hb), length_take. lia.
Qed.

(** X1.  [event_queue_init] returns 0 exactly when [malloc] answers.
    In that case the queue is ready: [cap] cells, none in use.  When
    [malloc] returns NULL it returns 1 and leaves a queue with a NULL
    buffer, on which [event_queue_pop] and (for a capacity above 0)
    [event_queue_push] dereference NULL. *)
Theorem init_contract fresh k :
  0 <= k < 2 ^ 32 →
  ∃ r h, event_queue_init fresh k = (r, h) ∧ count h = 0 ∧ cap h = k ∧
    match fresh with
    | Some _ => r = 0 ∧ wf h ∧ live h = [] ∧ heap_property h
    | None => r = 1 ∧ buf h = None ∧ event_queue_pop h = Undefined ∧
              (0 < k → ∀ f v, event_queue_push f h v = Undefined)
    end.
Proof.
  intros Hk. destruct (event_queue_init fresh k) as [r h] eqn:E.
  exists r, h. split; [done|]. destruct fresh as [junk|].
  - assert (r = 0) as -> by (by injection E).
    destruct (init_facts _ _ _ Hk E) as (Hwf & Hc & Hcap & Hheap & Hlive). done.
  - injection E as <- <-. repeat split.
    intros Hpos f v. unfold event_queue_push. cbn [count cap].
    by assert ((0 =? k) = false) as -> by (apply Z.eqb_neq; lia).
Qed.

(** X2.  With room left ([count < cap]) [event_queue_push] does not
    ask the allocator: whatever [realloc] would answer, it returns 0,
    keeps the capacity and holds one event more. *)
Theorem push_with_room h v :
  wf h → count h < cap h →
  ∃ h', (∀ fresh, event_queue_push fresh h v = Ret (0, h')) ∧
        wf h' ∧ count h' = count h + 1 ∧ cap h' = cap h ∧
        live h' ≡ₚ v :: live h.
Proof.
  intros Hwf Hroom.
  destruct (push_defined None h v Hwf) as (h' & E & _); [by left|].
  exists h'. split.
  - intros fresh. rewrite <-E. unfold event_queue_push.
    by assert ((count h =? cap h) = false) as -> by (apply Z.eqb_neq; lia).
  - split; [by eapply push_wf|]. split; [by eapply push_count|].
    split; [by eapply push_cap|by eapply push_live].
Qed.

(** X3.  [k + 1] insertions into a queue initialised with capacity [k],
    [0 < k < 2^31], the allocator answering the one time it is asked:
    all return 0, the capacity becomes [2 * k], and [k + 1] extractions
    then return the inserted events, each once, by nondecreasing
    timestamp. *)
Theorem growth_keeps_events fresh0 k l junk v h0 :
  0 < k < 2 ^ 31 → event_queue_init fresh0 k = (0, h0) → Z.of_nat (length l) = k →
  ∃ es h2,
    run h0 (inserts (l ++ [(Some junk, v)]) ++
            replicate (length (l ++ [(Some junk, v)])) ExtractMin) = Some (es, h2) ∧
    cap h2 = 2 * k ∧ count h2 = 0 ∧
    es ≡ₚ l.*2 ++ [v] ∧ Sorted Z.le (when <$> es).
Proof.
  intros Hk Hinit Hlen. set (l' := l ++ [(Some junk, v)]).
  destruct (init_facts fresh0 k h0 ltac:(lia) Hinit) as (Hwf & _ & _ & Hheap & Hlive).
  destruct (growth_doubles fresh0 k l junk v h0 Hk Hinit Hlen) as (h1 & Hrun & Hcap & Hc).
  fold l' in Hrun.
  destruct (run_inserts l' h0 [] h1 Hwf Hheap Hrun) as (_ & Hwf1 & Hheap1 & _).
  destruct (run_multiset _ h0 [] h1 Hwf Hrun) as [_ Hp].
  rewrite Hlive, inserted_inserts in Hp. simpl in Hp.
  destruct (run_extracts (length l') h1 Hwf1 Hheap1)
    as (es & h2 & Hr & Hperm & Hs & _ & _ & Hc2).
  { rewrite Hc. unfold l'. rewrite length_app. simpl. lia. }
  { lia. }
  exists es, h2. rewrite run_app, Hrun. simpl. rewrite Hr.
  split; [done|]. split; [|split; [done|split; [|done]]].
  - by rewrite (run_extracts_cap _ _ _ _ Hwf1 Hr).
  - rewrite Hperm, Hp. unfold l'. by rewrite fmap_app.
Qed.

(** X4.  After an insertion into a full queue that failed for lack of
    memory (capacity between 1 and [2^31 - 1]) the queue cannot be used
    again: its buffer is NULL while [count] is below the doubled [cap],
    so every later insertion, whatever the allocator answers then, and
    every extraction dereference NULL. *)
Theorem failed_growth_unusable h v :
  count h = cap h → 0 < cap h < 2 ^ 31 →
  ∃ h1, event_queue_push None h v = Ret (1, h1) ∧
        event_queue_pop h1 = Undefined ∧
        ∀ fresh v', event_queue_push fresh h1 v' = Undefined.
Proof.
  intros E Hcap. eexists. split.
  { unfold event_queue_push. by rewrite (proj2 (Z.eqb_eq _ _) E). }
  split; [done|]. intros fresh v'. unfold event_queue_push. cbn [count cap grow].
  assert (wrap (cap h * 2) = 2 * cap h) as -> by (rewrite wrap_small; lia).
  by assert ((count h =? 2 * cap h) = false) as -> by (apply Z.eqb_neq; lia).
Qed.

(** X5.  An event inserted with a timestamp strictly below those of all
    stored events is the one the next extraction returns, and that
    extraction leaves the events that were stored before. *)
Theorem inserted_minimum_is_next fresh h v h1 :
  wf h → heap_property h → count h <= 2 ^ 31 →
  event_queue_push fresh h v = Ret (0, h1) →
  (∀ x, x ∈ live h → when v < when x) →
  ∃ h2, event_queue_pop h1 = Ret (v, h2) ∧ live h2 ≡ₚ live h ∧ count h2 = count h.
Proof.
  intros Hwf Hheap Hsafe Hpush Hmin.
  pose proof Hwf as (_ & _ & _ & Hc & _).
  pose proof (push_wf _ _ _ _ Hwf Hpush) as Hwf1.
  pose proof (push_heap _ _ _ _ Hwf Hheap Hpush) as Hheap1.
  pose proof (push_count _ _ _ _ Hwf Hpush) as Hc1.
  pose proof (push_live _ _ _ _ Hwf Hpush) as Hlive1.
  destruct (pop_defined h1 Hwf1) as (e & h2 & Hpop); [lia..|].
  pose proof (pop_live _ _ _ Hwf1 ltac:(lia) Hpop) as Hlive2.
  assert (e = v) as ->.
  { assert (e ∈ v :: live h) as Hin by (rewrite <-Hlive1, Hlive2; by left).
    apply elem_of_cons in Hin as [->|Hin]; [done|].
    assert (when e <= when v); [|specialize (Hmin e Hin); lia].
    apply (pop_min _ _ _ Hwf1 ltac:(lia) Hheap1 Hpop). rewrite Hlive1. by left. }
  exists h2. split; [done|]. split.
  - apply (Permutation_cons_inv (a := v)). by rewrite <-Hlive2, Hlive1.
  - rewrite (pop_count _ _ _ Hwf1 ltac:(lia) Hpop). lia.
Qed.

(** X6.  Book-keeping along any sequence of insertions that return 0
    and extractions made with [count > 0]: [count] is the number of
    events inserted minus the number extracted, the buffer keeps
    [cap] cells with [count] of them in use, and [cap] is the initial
    capacity doubled some number of times; it never shrinks. *)
Theorem run_accounting rs : ∀ h es h',
  wf h → run h rs = Some (es, h') →
  wf h' ∧
  count h' = count h + Z.of_nat (length (inserted rs)) - Z.of_nat (length es) ∧
  Z.of_nat (length (live h')) = count h' ∧
  ∃ j : nat, cap h' = cap h * 2 ^ Z.of_nat j.
Proof.
  induction rs as [|[fresh v|] rs IH]; intros h es h' Hwf H; cbn [run] in H.
  - injection H as <- <-. split; [done|]. split; [simpl; lia|].
    split; [by apply live_length|]. exists 0%nat. simpl. lia.
  - destruct (event_queue_push fresh h v) as [[[|?|?] h1]| |] eqn:E; try done.
    destruct (IH h1 es h' (push_wf _ _ _ _ Hwf E) H) as (Hwf' & Hc & Hl & j & Hcap).
    split; [done|]. split; [|split; [done|]].
    + rewrite Hc, (push_count _ _ _ _ Hwf E).
      change (inserted (Insert fresh v :: rs)) with (v :: inserted rs).
      simpl length. lia.
    + destruct (push_cap_law _ _ _ _ Hwf E) as [Hsame|[_ Hdouble]].
      * exists j. by rewrite Hcap, Hsame.
      * exists (S j). rewrite Hcap, Hdouble, Nat2Z.inj_succ, Z.pow_succ_r by lia. lia.
  - destruct (0 <? count h) eqn:Epos; [|done]. apply Z.ltb_lt in Epos.
    destruct (event_queue_pop h) as [[e h1]| |] eqn:E; try done.
    destruct (run h1 rs) as [[es1 h2]|] eqn:Er; [|done]. injection H as <- <-.
    destruct (IH h1 es1 h2 (pop_wf _ _ _ Hwf Epos E) Er) as (Hwf' & Hc & Hl & j & Hcap).
    split; [done|]. split; [|split; [done|]].
    + rewrite Hc, (pop_count _ _ _ Hwf Epos E).
      change (inserted (ExtractMin :: rs)) with (inserted rs). simpl length. lia.
    + exists j. by rewrite Hcap, (pop_cap _ _ _ Hwf Epos E).
Qed.

(** X7.  The sift-up loop of [event_queue_push] and of [queue_push]
    comes to an end on every queue, whatever its buffer holds: [index]
    is halved in every round, so no more than 32 rounds are made. *)
Theorem push_loop_terminates :
  (∀ fresh h v, 0 <= count h < 2 ^ 32 → event_queue_push fresh h v ≠ OutOfFuel) ∧
  (∀ q k, 0 <= IntHeap.count q < 2 ^ 32 → IntHeap.queue_push q k ≠ OutOfFuel).
Proof.
  split.
  - intros fresh h v Hc. unfold event_queue_push.
    destruct (count h =? cap h); [|by apply insert_no_fuel].
    destruct (buf (grow fresh h)); [|done]. by apply insert_no_fuel.
  - intros q k Hc. destruct (IntHeap.data q) as [b|] eqn:Hb.
    + rewrite (queue_push_unfold q k b Hb).
      destruct (Heap.sift_up id loop_fuel b k (IntHeap.count q)) as [b'| |] eqn:E;
        try done.
      apply sift_up_no_fuel in E; [done|lia|]. apply loop_fuel_enough. lia.
    + unfold IntHeap.queue_push. cbn [IntHeap.data]. by rewrite Hb.
Qed.

(** X8.  [queue_push] on a heap with room left ([count] below the
    number of cells of the array): it returns, holds the inserted key
    in addition to the keys it held, keeps the array the size it was,
    and keeps the heap property. *)
Theorem queue_push_correct q k :
  IntHeap.wf q → IntHeap.count q < IntHeap.capacity q →
  ∃ q', IntHeap.queue_push q k = Ret q' ∧
    IntHeap.wf q' ∧ IntHeap.count q' = IntHeap.count q + 1 ∧
    IntHeap.capacity q' = IntHeap.capacity q ∧
    IntHeap.live q' ≡ₚ k :: IntHeap.live q ∧
    (IntHeap.heap_property q → IntHeap.heap_property q').
Proof.
  intros Hwf Hroom.
  destruct (int_push_inv q k Hwf Hroom) as (b & b' & _ & _ & _ & Heq).
  eexists. split; [exact Heq|]. by apply (int_push_state q k).
Qed.

(** X9.  [queue_pop] on a heap with [0 < count <= 2^31 + 1]: it returns
    a key that is among the keys held and is the least of them, the
    heap holds the other keys afterwards, and the heap property is
    kept. *)
Theorem queue_pop_correct q :
  IntHeap.wf q → 0 < IntHeap.count q → IntHeap.count q - 1 <= 2 ^ 31 →
  IntHeap.heap_property q →
  ∃ k q', IntHeap.queue_pop q = Ret (k, q') ∧
    IntHeap.wf q' ∧ IntHeap.count q' = IntHeap.count q - 1 ∧
    IntHeap.live q ≡ₚ k :: IntHeap.live q' ∧
    (∀ x, x ∈ IntHeap.live q → k <= x) ∧
    IntHeap.heap_property q'.
Proof.
  intros Hwf Hpos Hsafe Hheap.
  destruct (int_pop_defined q Hwf Hpos Hsafe) as (k & q' & E).
  destruct (int_pop_state q k q' Hwf Hpos E) as (Hwf' & Hc & _ & Hlive & Hmin & Hheap').
  exists k, q'. split; [done|]. split; [done|]. split; [done|]. split; [done|].
  split; [by apply Hmin|by apply Hheap'].
Qed.

(** X10.  The integer heap sorts: the keys [ks] pushed into an empty
    heap whose array has room for them, and then popped as many times,
    come out in nondecreasing order, each as often as it went in. *)
Theorem heap_sort q ks :
  IntHeap.wf q → IntHeap.count q = 0 →
  Z.of_nat (length ks) <= IntHeap.capacity q → Z.of_nat (length ks) - 1 <= 2 ^ 31 →
  ∃ out q',
    IntHeap.run q (IntHeap.inserts ks ++ replicate (length ks) IntHeap.ExtractMin)
      = Some (out, q') ∧
    Sorted Z.le out ∧ out ≡ₚ ks ∧ IntHeap.count q' = 0.
Proof.
  intros Hwf Hc Hroom Hsafe.
  assert (IntHeap.heap_property q) as Hheap.
  { intros i p c Hi. lia. }
  assert (IntHeap.live q = []) as Hlive.
  { unfold IntHeap.live. by rewrite Hc. }
  destruct (int_run_inserts ks q Hwf Hheap) as (q1 & Hrun & Hwf1 & Hheap1 & Hc1 & Hl1);
    [lia|].
  destruct (int_run_extracts (length ks) q1 Hwf1 Hheap1) as (out & q2 & Hr & Hp & Hs & Hc2);
    [lia..|].
  exists out, q2. rewrite int_run_app, Hrun. simpl. rewrite Hr.
  split; [done|]. split; [done|]. split; [|done].
  by rewrite Hp, Hl1, Hlive, app_nil_r.
Qed.

(** X11.  [queue.c] checks nothing.  [queue_push] on a heap that is
    full writes outside the array, and [queue_pop] on a heap with
    [count = 0] decrements [count] to [2^32 - 1] and reads outside
    the array: both are undefined. *)
Theorem int_heap_unchecked :
  (∀ q k, IntHeap.capacity q <= IntHeap.count q → IntHeap.queue_push q k = Undefined) ∧
  (∀ q, IntHeap.count q = 0 → IntHeap.capacity q < 2 ^ 32 →
     IntHeap.queue_pop q = Undefined).
Proof.
  split.
  - intros q k Hfull. destruct (IntHeap.data q) as [b|] eqn:Hb.
    + rewrite (int_capacity_data q b Hb) in Hfull.
      rewrite (queue_push_unfold q k b Hb). change loop_fuel with (S 32).
      by rewrite sift_up_outside.
    + unfold IntHeap.queue_push. cbn [IntHeap.data]. by rewrite Hb.
  - intros q Hc Hcap. unfold IntHeap.queue_pop. rewrite Hc.
    destruct (IntHeap.data q) as [b|] eqn:Hb; [|done].
    rewrite (int_capacity_data q b Hb) in Hcap. cbn [deref mbind outcome_bind].
    destruct (load b 0) as [k| |] eqn:E; [|done|by apply load_no_fuel in E].
    cbn [IntHeap.count]. change (wrap (0 - 1)) with 4294967295.
    rewrite (load_outside b 4294967295) by lia. done.
Qed.

(** *** The properties above on the sample queues *)

#[local] Transparent loop_fuel.

Lemma empty_queue_wf : wf empty_queue.
Proof. exists [blank; blank]. repeat split; simpl; lia. Qed.

Lemma sample_int_heap_wf : IntHeap.wf sample_int_heap.
Proof. split; [by eexists|]. unfold IntHeap.capacity. simpl. lia. Qed.

Lemma sample_int_heap_heap : IntHeap.heap_property sample_int_heap.
Proof.
  intros i p c Hi. assert (i = 1 ∨ i = 2) as [-> | ->] by (simpl in Hi; lia).
  all: intros [= <-] [= <-]; lia.
Qed.

Lemma empty_int_heap_wf : IntHeap.wf empty_int_heap.
Proof. split; [by eexists|]. unfold IntHeap.capacity. simpl. lia. Qed.

Lemma init_contract_witness :
  0 <= 2 < 2 ^ 32 ∧
  ∃ r h, event_queue_init None 2 = (r, h) ∧ count h = 0 ∧ cap h = 2 ∧
    r = 1 ∧ buf h = None ∧ event_queue_pop h = Undefined ∧
    (0 < 2 → ∀ f v, event_queue_push f h v = Undefined).
Proof.
  assert (0 <= 2 < 2 ^ 32) as H by lia.
  split; [exact H|]. exact (init_contract None 2 H).
Defined.

Lemma push_with_room_witness :
  wf sample_heap ∧ count sample_heap < cap sample_heap ∧
  ∃ h', (∀ fresh, event_queue_push fresh sample_heap (ev 1 10) = Ret (0, h')) ∧
        wf h' ∧ count h' = count sample_heap + 1 ∧ cap h' = cap sample_heap ∧
        live h' ≡ₚ ev 1 10 :: live sample_heap.
Proof.
  assert (count sample_heap < cap sample_heap) as H by (simpl; lia).
  split; [exact sample_heap_wf|]. split; [exact H|].
  exact (push_with_room sample_heap (ev 1 10) sample_heap_wf H).
Defined.

Lemma growth_keeps_events_witness :
  0 < 2 < 2 ^ 31 ∧ event_queue_init (Some []) 2 = (0, empty_queue) ∧
  Z.of_nat (length [(None, ev 5 50); (None : option (list event), ev 2 20)]) = 2 ∧
  ∃ es h2,
    run empty_queue (inserts growing_inserts ++
                     replicate (length growing_inserts) ExtractMin) = Some (es, h2) ∧
    cap h2 = 2 * 2 ∧ count h2 = 0 ∧
    es ≡ₚ [ev 5 50; ev 2 20] ++ [ev 8 80] ∧ Sorted Z.le (when <$> es).
Proof.
  assert (0 < 2 < 2 ^ 31) as H by lia.
  split; [exact H|]. split; [reflexivity|]. split; [reflexivity|].
  exact (growth_keeps_events (Some []) 2 [(None, ev 5 50); (None, ev 2 20)]
           [ev 9 90; ev 9 91] (ev 8 80) empty_queue H eq_refl eq_refl).
Defined.

Lemma failed_growth_unusable_witness :
  count full_queue = cap full_queue ∧ 0 < cap full_queue < 2 ^ 31 ∧
  ∃ h1, event_queue_push None full_queue (ev 3 30) = Ret (1, h1) ∧
        event_queue_pop h1 = Undefined ∧
        ∀ fresh v', event_queue_push fresh h1 v' = Undefined.
Proof.
  assert (0 < cap full_queue < 2 ^ 31) as H by (simpl; lia).
  split; [reflexivity|]. split; [exact H|].
  exact (failed_growth_unusable full_queue (ev 3 30) eq_refl H).
Defined.

Lemma inserted_minimum_is_next_witness :
  wf sample_heap ∧ heap_property sample_heap ∧ count sample_heap <= 2 ^ 31 ∧
  event_queue_push None sample_heap (ev 1 10) =
    Ret (0, EventQueue 4 4 (Some [ev 1 10; ev 2 20; ev 8 80; ev 5 50])) ∧
  (∀ x, x ∈ live sample_heap → when (ev 1 10) < when x) ∧
  ∃ h2, event_queue_pop (EventQueue 4 4 (Some [ev 1 10; ev 2 20; ev 8 80; ev 5 50]))
          = Ret (ev 1 10, h2) ∧
        live h2 ≡ₚ live sample_heap ∧ count h2 = count sample_heap.
Proof.
  assert (count sample_heap <= 2 ^ 31) as H by (simpl; lia).
  assert (∀ x, x ∈ live sample_heap → when (ev 1 10) < when x) as Hmin.
  { intros x Hin. apply list_elem_of_In in Hin.
    destruct Hin as [<-|[<-|[<-|[]]]]; simpl; lia. }
  split; [exact sample_heap_wf|]. split; [exact sample_heap_heap|]. split; [exact H|].
  split; [reflexivity|]. split; [exact Hmin|].
  exact (inserted_minimum_is_next None sample_heap (ev 1 10) _
           sample_heap_wf sample_heap_heap H eq_refl Hmin).
Defined.

Lemma run_accounting_witness :
  wf empty_queue ∧
  run empty_queue interleaved =
    Some ([ev 2 20; ev 2 21],
          EventQueue 2 4 (Some [ev 5 50; ev 8 80; ev 5 50; blank])) ∧
  2 = 0 + Z.of_nat (length (inserted interleaved)) - Z.of_nat (length [ev 2 20; ev 2 21]) ∧
  ∃ j : nat, 4 = 2 * 2 ^ Z.of_nat j.
Proof.
  assert (run empty_queue interleaved =
            Some ([ev 2 20; ev 2 21],
                  EventQueue 2 4 (Some [ev 5 50; ev 8 80; ev 5 50; blank]))) as H
    by (vm_compute; reflexivity).
  pose proof (run_accounting interleaved empty_queue _ _ empty_queue_wf H)
    as (_ & Hc & _ & Hcap).
  split; [exact empty_queue_wf|]. split; [exact H|]. split; [exact Hc|exact Hcap].
Defined.

Lemma push_loop_terminates_witness :
  (0 <= count sample_heap < 2 ^ 32 ∧
   event_queue_push None sample_heap (ev 1 10) ≠ OutOfFuel) ∧
  (0 <= IntHeap.count sample_int_heap < 2 ^ 32 ∧
   IntHeap.queue_push sample_int_heap 1 ≠ OutOfFuel).
Proof.
  assert (0 <= count sample_heap < 2 ^ 32) as H1 by (simpl; lia).
  assert (0 <= IntHeap.count sample_int_heap < 2 ^ 32) as H2 by (simpl; lia).
  split.
  - split; [exact H1|]. exact (proj1 push_loop_terminates None sample_heap (ev 1 10) H1).
  - split; [exact H2|]. exact (proj2 push_loop_terminates sample_int_heap 1 H2).
Defined.

Lemma queue_push_correct_witness :
  IntHeap.wf sample_int_heap ∧
  IntHeap.count sample_int_heap < IntHeap.capacity sample_int_heap ∧
  ∃ q', IntHeap.queue_push sample_int_heap 1 = Ret q' ∧
    IntHeap.wf q' ∧ IntHeap.count q' = IntHeap.count sample_int_heap + 1 ∧
    IntHeap.capacity q' = IntHeap.capacity sample_int_heap ∧
    IntHeap.live q' ≡ₚ 1 :: IntHeap.live sample_int_heap ∧
    (IntHeap.heap_property sample_int_heap → IntHeap.heap_property q').
Proof.
  assert (IntHeap.count sample_int_heap < IntHeap.capacity sample_int_heap) as H
    by (unfold IntHeap.capacity; simpl; lia).
  split; [exact sample_int_heap_wf|]. split; [exact H|].
  exact (queue_push_correct sample_int_heap 1 sample_int_heap_wf H).
Defined.

Lemma queue_pop_correct_witness :
  IntHeap.wf sample_int_heap ∧ 0 < IntHeap.count sample_int_heap ∧
  IntHeap.count sample_int_heap - 1 <= 2 ^ 31 ∧
  IntHeap.heap_property sample_int_heap ∧
  ∃ k q', IntHeap.queue_pop sample_int_heap = Ret (k, q') ∧
    IntHeap.wf q' ∧ IntHeap.count q' = IntHeap.count sample_int_heap - 1 ∧
    IntHeap.live sample_int_heap ≡ₚ k :: IntHeap.live q' ∧
    (∀ x, x ∈ IntHeap.live sample_int_heap → k <= x) ∧
    IntHeap.heap_property q'.
Proof.
  assert (0 < IntHeap.count sample_int_heap) as H1 by (simpl; lia).
  assert (IntHeap.count sample_int_heap - 1 <= 2 ^ 31) as H2 by (simpl; lia).
  split; [exact sample_int_heap_wf|]. split; [exact H1|]. split; [exact H2|].
  split; [exact sample_int_heap_heap|].
  exact (queue_pop_correct sample_int_heap sample_int_heap_wf H1 H2 sample_int_heap_heap).
Defined.

Lemma heap_sort_witness :
  IntHeap.wf empty_int_heap ∧ IntHeap.count empty_int_heap = 0 ∧
  Z.of_nat (length sample_keys) <= IntHeap.capacity empty_int_heap ∧
  Z.of_nat (length sample_keys) - 1 <= 2 ^ 31 ∧
  IntHeap.run empty_int_heap
    (IntHeap.inserts sample_keys ++ replicate (length sample_keys) IntHeap.ExtractMin)
    = Some ([-2; 5; 5; 8], IntHeap.Queue 0 (Some [8; 8; 8; 5])) ∧
  ∃ out q',
    IntHeap.run empty_int_heap
      (IntHeap.inserts sample_keys ++ replicate (length sample_keys) IntHeap.ExtractMin)
      = Some (out, q') ∧
    Sorted Z.le out ∧ out ≡ₚ sample_keys ∧ IntHeap.count q' = 0.
Proof.
  assert (Z.of_nat (length sample_keys) <= IntHeap.capacity empty_int_heap) as H1
    by (unfold IntHeap.capacity; simpl; lia).
  assert (Z.of_nat (length sample_keys) - 1 <= 2 ^ 31) as H2 by (simpl; lia).
  split; [exact empty_int_heap_wf|]. split; [reflexivity|]. split; [exact H1|].
  split; [exact H2|]. split; [reflexivity|].
  exact (heap_sort empty_int_heap sample_keys empty_int_heap_wf eq_refl H1 H2).
Defined.

Lemma int_heap_unchecked_witness :
  (IntHeap.capacity full_int_heap <= IntHeap.count full_int_heap ∧
   IntHeap.queue_push full_int_heap 0 = Undefined) ∧
  (IntHeap.count empty_int_heap = 0 ∧ IntHeap.capacity empty_int_heap < 2 ^ 32 ∧
   IntHeap.queue_pop empty_int_heap = Undefined).
Proof.
  assert (IntHeap.capacity full_int_heap <= IntHeap.count full_int_heap) as H1
    by (unfold IntHeap.capacity; simpl; lia).
  assert (IntHeap.capacity empty_int_heap < 2 ^ 32) as H2
    by (unfold IntHeap.capacity; simpl; lia).
  split.
  - split; [exact H1|]. exact (proj1 int_heap_unchecked full_int_heap 0 H1).
  - split; [reflexivity|]. split; [exact H2|].
    exact (proj2 int_heap_unchecked empty_int_heap eq_refl H2).
Defined.

(** ** The integer heap against the event queue *)

Lemma sample_same_keys : same_keys sample_int_heap sample_heap.
Proof. split; [done|]. by eexists _, _. Qed.

Lemma sample_int_heap_keys : Forall timestamp_key (IntHeap.live sample_int_heap).
Proof. repeat constructor; unfold timestamp_key; lia. Qed.

(** C9.  [queue_push] and [queue_pop] do on bare keys what
    [event_queue_push] and [event_queue_pop] do on events that carry
    the keys as timestamps, for keys that are not negative and as long
    as the event queue does not have to grow.  From an integer heap and
    an event queue with the same key arrangement, a caller that makes
    the same requests of both (extracting only when [count > 0],
    inserting only when [count < cap]) extracts the same keys in the
    same order and ends with the same key arrangement; and either
    caller stops short exactly when the other does.  The keys held and
    the keys inserted are in [0 .. 2^31 - 1]: an [int] converted to
    [uint64_t] keeps its value, and with it its place in the order,
    only if it is not negative. *)
Theorem int_heap_matches_event_queue krs rs q h :
  Forall2 carries krs rs →
  Forall timestamp_key (inserted_keys krs) →
  Forall timestamp_key (IntHeap.live q) →
  same_keys q h → wf h → never_grows (count h) (cap h) rs = true →
  same_extraction (IntHeap.run q krs) (run h rs).
Proof.
  intros Hcar Hins Hlive Hsame Hwf Hfit.
  apply (same_keys_cells q h Hlive) in Hsame.
  pose proof (run_same_cells krs rs Hcar q h Hins Hlive Hsame Hwf Hfit) as Hrun.
  unfold same_extraction.
  destruct (IntHeap.run q krs) as [[ks q']|], (run h rs) as [[es h']|]; try done.
  destruct Hrun as (-> & Hsame' & Hks & Hlive').
  split.
  - by rewrite (to_uint64_fmap _ Hks).
  - by apply (same_keys_cells q' h' Hlive').
Qed.

Lemma int_heap_matches_event_queue_witness :
  Forall2 carries no_growth_key_requests no_growth_requests ∧
  Forall timestamp_key (inserted_keys no_growth_key_requests) ∧
  Forall timestamp_key (IntHeap.live sample_int_heap) ∧
  same_keys sample_int_heap sample_heap ∧ wf sample_heap ∧
  never_grows (count sample_heap) (cap sample_heap) no_growth_requests = true ∧
  IntHeap.run sample_int_heap no_growth_key_requests =
    Some ([2; 1; 5], IntHeap.Queue 2 (Some [6; 8; 8; 8])) ∧
  same_extraction (IntHeap.run sample_int_heap no_growth_key_requests)
    (run sample_heap no_growth_requests).
Proof.
  assert (Forall2 carries no_growth_key_requests no_growth_requests) as H1
    by (repeat constructor).
  assert (Forall timestamp_key (inserted_keys no_growth_key_requests)) as H2
    by (repeat constructor; unfold timestamp_key; lia).
  split; [exact H1|]. split; [exact H2|]. split; [exact sample_int_heap_keys|].
  split; [exact sample_same_keys|]. split; [exact sample_heap_wf|].
  split; [reflexivity|]. split; [reflexivity|].
  exact (int_heap_matches_event_queue no_growth_key_requests no_growth_requests
           sample_int_heap sample_heap H1 H2 sample_int_heap_keys
           sample_same_keys sample_heap_wf eq_refl).
Defined.

(** The keys -1 and 1.  The integer heap returns -1 first.  The events
    that carry them have the timestamps [2^64 - 1] and 1, and the event
    queue returns the event with timestamp 1 first: the two extraction
    orders differ. *)
Lemma negative_key_order_differs :
  Forall2 carries negative_key_requests negative_event_requests ∧
  same_keys two_cell_int_heap empty_queue ∧ wf empty_queue ∧
  never_grows (count empty_queue) (cap empty_queue) negative_event_requests = true ∧
  IntHeap.run two_cell_int_heap negative_key_requests =
    Some ([-1; 1], IntHeap.Queue 0 (Some [1; 1])) ∧
  run empty_queue negative_event_requests =
    Some ([ev 1 0; ev 18446744073709551615 0],
          EventQueue 0 2 (Some [ev 18446744073709551615 0; ev 18446744073709551615 0])) ∧
  ¬ same_extraction (IntHeap.run two_cell_int_heap negative_key_requests)
      (run empty_queue negative_event_requests).
Proof.
  split; [repeat constructor|]. split; [split; [done|]; by eexists _, _|].
  split; [exact empty_queue_wf|]. split; [reflexivity|].
  split; [reflexivity|]. split; [reflexivity|].
  intros H. vm_compute in H. destruct H as [H _]. discriminate H.
Qed.
